(** * site2pdf: the crawl-and-render pipeline of [src/index.ts]

    A shallow embedding of [normalizeURL], [generateSlug], [generatePDF]
    (crawl loop, render scheduling, assembly) and [main], together with the
    properties of the pipeline that the specification states.

    JavaScript strings are modelled as [string]; arrays and the insertion
    ordered [Set] as lists; everything the program reaches through the
    browser, the PDF store, the regular expression engine or the file system
    is a field of the record [World]. *)

From Stdlib Require Import Ascii String Bool Arith Lia.
From stdpp Require Import base list strings.

(** ** String methods used by the program *)

Module Js.

(** [s.startsWith(t)] *)
Fixpoint startsWith (s t : string) {struct t} : bool :=
  match t with
  | EmptyString => true
  | String b t' =>
      match s with
      | EmptyString => false
      | String a s' => if Ascii.eqb a b then startsWith s' t' else false
      end
  end.

(** [s.includes(t)]: [t] starts at some position of [s]. *)
Fixpoint includes (s t : string) : bool :=
  startsWith s t ||
  match s with
  | EmptyString => false
  | String _ s' => includes s' t
  end.

(** [s.endsWith(t)]: some tail of [s] is [t]. *)
Fixpoint endsWith (s t : string) : bool :=
  String.eqb s t ||
  match s with
  | EmptyString => false
  | String _ s' => endsWith s' t
  end.

(** [s.split(sep)[0]] for a non-empty separator: the text before the first
    occurrence of [sep], or all of [s] when there is none. *)
Fixpoint split_0 (s sep : string) : string :=
  match s with
  | EmptyString => EmptyString
  | String c s' => if startsWith s sep then EmptyString else String c (split_0 s' sep)
  end.

(** [s.slice(0, -1)]: [s] without its last character. *)
Fixpoint slice_0_neg1 (s : string) : string :=
  match s with
  | EmptyString => EmptyString
  | String c s' =>
      match s' with
      | EmptyString => EmptyString
      | String _ _ => String c (slice_0_neg1 s')
      end
  end.

(** [arr.includes(x)] on an array of strings. *)
Fixpoint arr_includes (arr : list string) (x : string) : bool :=
  match arr with
  | [] => false
  | y :: arr' => String.eqb y x || arr_includes arr' x
  end.

End Js.

(** ** [normalizeURL] (index.ts, lines 220-225) *)

Definition normalizeURL (url : string) : string :=
  let urlWithoutAnchor := Js.split_0 url "#" in
  if Js.endsWith urlWithoutAnchor "/"
  then Js.slice_0_neg1 urlWithoutAnchor
  else urlWithoutAnchor.

(** ** [generateSlug] (index.ts, lines 209-218) *)

Module Slug.

Definition isWord (c : ascii) : bool :=
  let n := nat_of_ascii c in
  ((48 <=? n) && (n <=? 57)) || ((65 <=? n) && (n <=? 90)) ||
  ((97 <=? n) && (n <=? 122)) || (n =? 95).

(** [\s] on code units below 256. *)
Definition isSpace (c : ascii) : bool :=
  let n := nat_of_ascii c in
  ((9 <=? n) && (n <=? 13)) || (n =? 32) || (n =? 160).

Fixpoint drop (n : nat) (s : string) : string :=
  match n, s with
  | S n', String _ s' => drop n' s'
  | _, _ => s
  end.

(** [.replace(/https?:\/\//, "")]: the leftmost match only. *)
Fixpoint stripScheme (s : string) : string :=
  if Js.startsWith s "https://" then drop 8 s
  else if Js.startsWith s "http://" then drop 7 s
  else match s with
       | EmptyString => EmptyString
       | String c s' => String c (stripScheme s')
       end.

Fixpoint mapChars (f : ascii -> ascii) (s : string) : string :=
  match s with
  | EmptyString => EmptyString
  | String c s' => String (f c) (mapChars f s')
  end.

(** [.replace(/[^\w\s-]/g, "-")] *)
Definition dashOthers (c : ascii) : ascii :=
  if isWord c || isSpace c || Ascii.eqb c "-" then c else "-"%char.

(** [.replace(/p+/g, "-")] for a one-character class [p]: every maximal run
    becomes one hyphen. *)
Fixpoint squeeze (p : ascii -> bool) (inRun : bool) (s : string) : string :=
  match s with
  | EmptyString => EmptyString
  | String c s' =>
      if p c
      then (if inRun then squeeze p true s' else String "-" (squeeze p true s'))
      else String c (squeeze p false s')
  end.

(** [.replace(/\./g, "-")] *)
Definition dashDot (c : ascii) : ascii :=
  if Ascii.eqb c "." then "-"%char else c.

(** [.replace(/^-|-$/g, "")] *)
Definition trimHyphens (s : string) : string :=
  let s1 := match s with
            | String c s' => if Ascii.eqb c "-" then s' else s
            | EmptyString => s
            end in
  if Js.endsWith s1 "-" then Js.slice_0_neg1 s1 else s1.

Definition toLower (c : ascii) : ascii :=
  let n := nat_of_ascii c in
  if (65 <=? n) && (n <=? 90) then ascii_of_nat (n + 32) else c.

End Slug.

Definition generateSlug (url : string) : string :=
  Slug.mapChars Slug.toLower
    (Slug.trimHyphens
      (Slug.squeeze (fun c => Ascii.eqb c "-") false
        (Slug.mapChars Slug.dashDot
          (Slug.squeeze Slug.isSpace false
            (Slug.mapChars Slug.dashOthers
              (Slug.stripScheme url)))))).

(** ** Errors, outcomes and the collaborators *)

Inductive error : Type :=
| MainUrlRequired                          (* Error("<main_url> is required") *)
| NoPDFsGenerated                          (* Error("No PDFs were generated successfully") *)
| RegExpSyntaxError (pattern : string)     (* SyntaxError of [new RegExp(pattern)] *)
| ConcurrencyTypeError                     (* TypeError of [pLimit(0)] *)
| External (message : string).             (* raised by the browser, the PDF store or the file system *)

(** The result of awaiting an async function: it returns, it throws, or it
    has not finished (the crawl loop ran out of fuel, or a promise that is
    awaited never settles). *)
Inductive Res (A : Type) : Type :=
| Returns (a : A)
| Throws (e : error)
| Unfinished.
Arguments Returns {A} a.
Arguments Throws {A} e.
Arguments Unfinished {A}.

(** A settled promise, as [Promise.allSettled] reports it. *)
Inductive Settled (A : Type) : Type :=
| Fulfilled (value : A)
| Rejected (reason : error).
Arguments Fulfilled {A} value.
Arguments Rejected {A} reason.

Definition Buffer := string.

(** A [RegExp] object is represented by its pattern text.  ([source] escapes
    [/] in that text, which denotes the same pattern.) *)
Record RegExp : Type := mkRegExp { source : string }.

(** What happens when the crawl opens a tab on a URL (index.ts, lines 55-84).
    The collaborators report their failures as messages; the program sees
    them as [External] errors. *)
Inductive FetchOutcome : Type :=
| NewPageRejects (message : string)   (* line 55, outside the try *)
| GotoRejects (message : string)      (* line 57: navigation error or timeout *)
| EvaluateRejects (message : string)  (* line 59 *)
| Loaded (anchors : list (option string)) (close : option string).
    (* one entry per [a] element: [Some href] where [new URL(...)] gives
       [href], [None] where it throws; [close] is the rejection of
       [page.close()] in the finally block, if any *)

(** What happens when the render phase opens a tab on a URL (lines 99-167). *)
Inductive RenderOutcome : Type :=
| TabRejects (message : string)    (* line 101, outside the try: the task rejects *)
| StepThrows (message : string)    (* lines 104-157: caught at line 161 *)
| CloseRejects (message : string)  (* line 165: the finally block rejects the task *)
| Captured (pdfBytes : Buffer).

(** Everything outside the program.  [completionOrder_perm] says that every
    task handed to the limiter settles, in some order. *)
Record World : Type := mkWorld {
  (** [new RegExp(p)]: [None] for a SyntaxError, otherwise what [.test] answers *)
  RegExp_compile : string -> option (string -> bool);
  fetch : string -> FetchOutcome;
  render : string -> RenderOutcome;
  (** the order in which [n] limited tasks settle, as indices into the task array *)
  completionOrder : nat -> list nat;
  completionOrder_perm : forall n, completionOrder n ≡ₚ seq 0 n;
  PDFPage : Type;
  PDFDocument_load : Buffer -> string + list PDFPage;
  PDFDocument_save : list PDFPage -> Buffer;
  (** [useBrowserContext()]: [Some message] when launching the browser fails *)
  launch : option string;
  cpus_length : nat;
  path_join : list string -> string;
  fs_ensureDir : string -> option string;
  fs_writeFile : string -> Buffer -> option string
}.

(** ** The crawl (index.ts, lines 47-97) *)

(** [crawledUrls] is the insertion-ordered [Set], [queue] the array.
    [navigations] is a ghost log of the URLs handed to [page.goto]. *)
Record CrawlState : Type := mkCrawl {
  crawledUrls : list string;
  queue : list string;
  navigations : list string
}.

Definition Set_has (s : list string) (x : string) : bool := Js.arr_includes s x.
Definition Set_add (s : list string) (x : string) : list string :=
  if Set_has s x then s else s ++ [x].

(** The callback of [links.map] inside [page.evaluate] (lines 61-72). *)
Definition evalLink (W : World) (pattern : string) (link : option string) : option string :=
  match link with
  | None => None
  | Some resolvedUrl =>
      if negb (Js.includes resolvedUrl "#") &&
         negb (Js.includes resolvedUrl "mailto:") &&
         negb (Js.includes resolvedUrl "tel:")
      then match RegExp_compile W pattern with
           | None => None
           | Some test => if test resolvedUrl then Some resolvedUrl else None
           end
      else None
  end.

(** [Boolean(v)] for [v : string | null]. *)
Definition truthy (v : option string) : bool :=
  match v with
  | Some s => negb (String.eqb s "")
  | None => false
  end.

(** [links.map(...).filter(Boolean) as string[]] (lines 61-73). *)
Definition subLinks (W : World) (pattern : string) (anchors : list (option string)) : list string :=
  omap id (List.filter truthy (map (evalLink W pattern) anchors)).

(** The body of the [for] loop (lines 77-80). *)
Definition enqueue (st : CrawlState) (link : string) : CrawlState :=
  let normalized := normalizeURL link in
  if negb (Set_has (crawledUrls st) normalized) && negb (Js.arr_includes (queue st) normalized)
  then mkCrawl (crawledUrls st) (queue st ++ [normalized]) (navigations st)
  else st.

(** [crawlPage] (lines 51-85): the state it leaves and the error it rejects
    with, if any. *)
Definition crawlPage (W : World) (pattern : string) (currentUrl : string) (st : CrawlState)
  : CrawlState * option error :=
  if Set_has (crawledUrls st) currentUrl then (st, None)
  else
    let st1 := mkCrawl (Set_add (crawledUrls st) currentUrl) (queue st) (navigations st) in
    let st2 := mkCrawl (crawledUrls st1) (queue st1) (navigations st1 ++ [currentUrl]) in
    match fetch W currentUrl with
    | NewPageRejects e => (st1, Some (External e))
    | GotoRejects e => (st2, Some (External e))
    | EvaluateRejects e => (st2, Some (External e))
    | Loaded anchors close =>
        (fold_left enqueue (subLinks W pattern anchors) st2, External <$> close)
    end.

Inductive CrawlResult : Type :=
| Completed (st : CrawlState)          (* the queue is empty *)
| Aborted (e : error) (st : CrawlState) (* [crawlPage] rejected: the loop is left *)
| OutOfFuel (st : CrawlState).

(** The [while] loop (lines 88-91); [fuel] bounds the number of iterations. *)
Fixpoint crawlLoop (W : World) (pattern : string) (fuel : nat) (st : CrawlState) : CrawlResult :=
  match queue st with
  | [] => Completed st
  | currentUrl :: rest =>
      match fuel with
      | 0 => OutOfFuel st
      | S fuel' =>
          match crawlPage W pattern currentUrl (mkCrawl (crawledUrls st) rest (navigations st)) with
          | (st', Some e) => Aborted e st'
          | (st', None) => crawlLoop W pattern fuel' st'
          end
      end
  end.

Definition crawlInit (url : string) : CrawlState := mkCrawl [] [url] [].

Definition crawl (W : World) (url : string) (urlPattern : RegExp) (fuel : nat) : CrawlResult :=
  crawlLoop W (source urlPattern) fuel (crawlInit url).

(** Lines 93-97. *)
Definition uniqueSubLinks (url : string) (st : CrawlState) : list string :=
  let arr := crawledUrls st in
  if negb (Js.arr_includes arr url) then url :: arr else arr.

(** ** Rendering and assembly (index.ts, lines 99-206) *)

Record PdfResult : Type := mkPdf { url : string; buffer : Buffer }.

(** [generatePDFForPage] (lines 99-167), as the promise of its task settles. *)
Definition generatePDFForPage (W : World) (link : string) : Settled (option PdfResult) :=
  match render W link with
  | TabRejects e => Rejected (External e)
  | StepThrows _ => Fulfilled None
  | CloseRejects e => Rejected (External e)
  | Captured pdfBytes => Fulfilled (Some (mkPdf link pdfBytes))
  end.

(** [Promise.allSettled]: the element that settles writes its outcome at its
    own index of the values array; the aggregate promise resolves with that
    array once every element has settled.  [order] lists the indices in the
    order in which the elements settle; [None] means the aggregate is still
    pending. *)
Definition settleAt {A : Type} (outcomes : list A) (values : list (option A)) (i : nat)
  : list (option A) :=
  <[i := outcomes !! i]> values.

Definition Promise_allSettled {A : Type} (order : list nat) (outcomes : list A) : option (list A) :=
  let values := fold_left (settleAt outcomes) order (replicate (length outcomes) None) in
  mapM id values.

(** Lines 170-174: every link becomes one task behind the limiter. *)
Definition renderAll (W : World) (links : list string) : option (list (Settled (option PdfResult))) :=
  Promise_allSettled (completionOrder W (length links)) (map (generatePDFForPage W) links).

Definition fulfilledValue {A : Type} (r : Settled A) : option A :=
  match r with
  | Fulfilled v => Some v
  | Rejected _ => None
  end.

(** Lines 177-182. *)
Definition pdfResultsOf (results : list (Settled (option PdfResult))) : list PdfResult :=
  omap id (omap fulfilledValue results).

(** Lines 197-199: [addPage] for each copied page. *)
Definition addPages {P : Type} (pdfDoc : list P) (copiedPages : list P) : list P :=
  fold_left (fun doc page => doc ++ [page]) copiedPages pdfDoc.

(** Lines 191-200; [PDFDocument.load] may throw. *)
Fixpoint mergeInto (W : World) (pdfResults : list PdfResult) (pdfDoc : list (PDFPage W))
  : error + list (PDFPage W) :=
  match pdfResults with
  | [] => inr pdfDoc
  | r :: rest =>
      match PDFDocument_load W (buffer r) with
      | inl e => inl (External e)
      | inr subPdfDoc => mergeInto W rest (addPages pdfDoc subPdfDoc)
      end
  end.

Inductive Output : Type :=
| Combined (pdf : Buffer)
| Separate (pdfs : list PdfResult).

(** Lines 184-206. *)
Definition assemble (W : World) (results : list (Settled (option PdfResult))) (separate : bool)
  : Res Output :=
  let pdfResults := pdfResultsOf results in
  if length pdfResults =? 0 then Throws NoPDFsGenerated
  else if negb separate
  then match mergeInto W pdfResults [] with
       | inl e => Throws e
       | inr pdfDoc => Returns (Combined (PDFDocument_save W pdfDoc))
       end
  else Returns (Separate pdfResults).

(** Lines 169-206, from the list of links to the value returned. *)
Definition renderAndAssemble (W : World) (links : list string) (separate : bool) : Res Output :=
  match renderAll W links with
  | None => Unfinished
  | Some results => assemble W results separate
  end.

(** [generatePDF] (lines 39-207); [separate] is the truth value of
    [options?.separate]. *)
Definition generatePDF (W : World) (fuel : nat) (url : string) (urlPattern : RegExp)
    (concurrentLimit : nat) (separate : bool) : Res Output :=
  if concurrentLimit =? 0 then Throws ConcurrencyTypeError
  else match crawl W url urlPattern fuel with
       | OutOfFuel _ => Unfinished
       | Aborted e _ => Throws e
       | Completed st => renderAndAssemble W (uniqueSubLinks url st) separate
       end.

(** ** [main] (index.ts, lines 233-280) *)

Record Options : Type := mkOptions { separate : option bool; outputPath : string }.

Inductive UrlPattern : Type :=
| PatString (s : string)
| PatRegExp (r : RegExp).

(** What [main] does to the outside, in order. *)
Inductive Event : Type :=
| HelpShown
| BrowserLaunched
| FileWritten (path : string) (data : Buffer)
| ErrorReported (e : error)       (* console.error("Error generating PDF:", e) *)
| BrowserClosed.                  (* ctx.browser.close() was called *)

Definition RegExp_new (W : World) (pattern : string) : error + RegExp :=
  match RegExp_compile W pattern with
  | None => inl (RegExpSyntaxError pattern)
  | Some _ => inr (mkRegExp pattern)
  end.

(** Line 241: [urlPattern || new RegExp(`^${mainURL}`)]. *)
Definition defaultedPattern (W : World) (mainURL : string) (urlPattern : option UrlPattern)
  : error + UrlPattern :=
  match urlPattern with
  | Some (PatRegExp r) => inr (PatRegExp r)
  | Some (PatString (String c s)) => inr (PatString (String c s))
  | Some (PatString EmptyString) | None =>
      match RegExp_new W ("^" +:+ mainURL) with
      | inl e => inl e
      | inr r => inr (PatRegExp r)
      end
  end.

(** Line 252: [pattern instanceof RegExp ? pattern : new RegExp(pattern)]. *)
Definition asRegExp (W : World) (pattern : UrlPattern) : error + RegExp :=
  match pattern with
  | PatRegExp r => inr r
  | PatString s => RegExp_new W s
  end.

Definition isTrue (b : option bool) : bool :=
  match b with
  | Some true => true
  | _ => false
  end.

(** Lines 262-267. *)
Fixpoint writeEach (W : World) (outputDir : string) (pdfs : list PdfResult)
  : list Event * option error :=
  match pdfs with
  | [] => ([], None)
  | r :: rest =>
      let out := path_join W [outputDir; generateSlug (url r) +:+ ".pdf"] in
      match fs_writeFile W out (buffer r) with
      | Some e => ([], Some (External e))
      | None => let '(evs, err) := writeEach W outputDir rest in
                (FileWritten out (buffer r) :: evs, err)
      end
  end.

(** Lines 257-274. *)
Definition writeOutput (W : World) (mainURL : string) (options : Options) (result : Output)
  : list Event * option error :=
  let outputDir := path_join W [outputPath options] in
  match fs_ensureDir W outputDir with
  | Some e => ([], Some (External e))
  | None =>
      match result with
      | Separate pdfs => writeEach W outputDir pdfs
      | Combined pdf =>
          let out := path_join W [outputDir; generateSlug mainURL +:+ ".pdf"] in
          match fs_writeFile W out pdf with
          | Some e => ([], Some (External e))
          | None => ([FileWritten out pdf], None)
          end
      end
  end.

(** The [try] block (lines 247-274): whether [ctx] was assigned, what was
    done, and how the block was left. *)
Definition mainTry (W : World) (fuel : nat) (mainURL : string) (pattern : UrlPattern)
    (options : Options) : bool * list Event * Res unit :=
  match launch W with
  | Some e => (false, [], Throws (External e))
  | None =>
      match asRegExp W pattern with
      | inl e => (true, [BrowserLaunched], Throws e)
      | inr re =>
          match generatePDF W fuel mainURL re (cpus_length W) (isTrue (separate options)) with
          | Unfinished => (true, [BrowserLaunched], Unfinished)
          | Throws e => (true, [BrowserLaunched], Throws e)
          | Returns result =>
              let '(evs, err) := writeOutput W mainURL options result in
              (true, BrowserLaunched :: evs,
               match err with Some e => Throws e | None => Returns tt end)
          end
      end
  end.

(** Line 278: [ctx?.browser.close()]. *)
Definition closing (ctxAssigned : bool) : list Event :=
  if ctxAssigned then [BrowserClosed] else [].

Definition main (W : World) (fuel : nat) (mainURL : string) (urlPattern : option UrlPattern)
    (options : Options) : Res unit * list Event :=
  if String.eqb mainURL "" then (Throws MainUrlRequired, [HelpShown])
  else
    match defaultedPattern W mainURL urlPattern with
    | inl e => (Throws e, [])
    | inr pattern =>
        let '(ctxAssigned, evs, r) := mainTry W fuel mainURL pattern options in
        match r with
        | Unfinished => (Unfinished, evs)
        | Throws e => (Returns tt, evs ++ [ErrorReported e] ++ closing ctxAssigned)
        | Returns _ => (Returns tt, evs ++ closing ctxAssigned)
        end
    end.

(** ** The crawl filter of the earlier copy of the program (lines 61-72)

    There the link is kept when it starts with the seed text; no regular
    expression is involved. *)

Module Legacy.

Definition evalLink (mainUrl : string) (link : option string) : option string :=
  match link with
  | None => None
  | Some resolvedUrl =>
      if Js.startsWith resolvedUrl mainUrl &&
         negb (Js.includes resolvedUrl "#") &&
         negb (Js.includes resolvedUrl "mailto:") &&
         negb (Js.includes resolvedUrl "tel:")
      then Some resolvedUrl
      else None
  end.

End Legacy.

(** ** Stand-ins for the collaborators, used by the examples

    [Fragment] is a regular-expression engine for the patterns made of an
    optional leading [^] followed by literal characters, [.] and escaped
    syntax characters, each of which may be followed by one [?]; it gives
    them the meaning the JavaScript engine gives them.  Any other pattern is
    answered like a malformed one; of those the examples only use an
    unterminated group, which is malformed for the JavaScript engine too. *)

Module Fragment.

Inductive atom : Type :=
| Lit (c : ascii)
| AnyChar.

Inductive token : Type :=
| TAtom (a : atom)
| TQuestion
| TOther.

Inductive term : Type :=
| One (a : atom)
| Opt (a : atom).

Definition isSyntaxChar (c : ascii) : bool :=
  Js.includes "^$\.*+?()[]{}|" (String c EmptyString).

Fixpoint tokens (p : string) : list token :=
  match p with
  | EmptyString => []
  | String c rest =>
      if Ascii.eqb c "\" then
        match rest with
        | EmptyString => [TOther]
        | String d rest' =>
            (if isSyntaxChar d || Ascii.eqb d "/" then TAtom (Lit d) else TOther)
              :: tokens rest'
        end
      else if Ascii.eqb c "." then TAtom AnyChar :: tokens rest
      else if Ascii.eqb c "?" then TQuestion :: tokens rest
      else if isSyntaxChar c then TOther :: tokens rest
      else TAtom (Lit c) :: tokens rest
  end.

Fixpoint terms (ts : list token) : option (list term) :=
  match ts with
  | [] => Some []
  | TAtom a :: ts' =>
      match ts' with
      | TQuestion :: ts'' => cons (Opt a) <$> terms ts''
      | _ => cons (One a) <$> terms ts'
      end
  | TQuestion :: _ => None
  | TOther :: _ => None
  end.

Definition matchAtom (a : atom) (c : ascii) : bool :=
  match a with
  | Lit d => Ascii.eqb c d
  | AnyChar => negb (Ascii.eqb c "010" || Ascii.eqb c "013")
  end.

(** The terms match an initial part of [s]. *)
Fixpoint matchHere (ts : list term) (s : string) : bool :=
  match ts with
  | [] => true
  | One a :: ts' =>
      match s with
      | EmptyString => false
      | String c s' => matchAtom a c && matchHere ts' s'
      end
  | Opt a :: ts' =>
      match s with
      | EmptyString => false
      | String c s' => matchAtom a c && matchHere ts' s'
      end || matchHere ts' s
  end.

Fixpoint search (ts : list term) (s : string) : bool :=
  matchHere ts s ||
  match s with
  | EmptyString => false
  | String _ s' => search ts s'
  end.

Definition compile (p : string) : option (string -> bool) :=
  match p with
  | String "^" body => matchHere <$> terms (tokens body)
  | _ => search <$> terms (tokens p)
  end.

End Fragment.

Fixpoint assoc {A : Type} (k : string) (l : list (string * A)) : option A :=
  match l with
  | [] => None
  | (k', v) :: l' => if String.eqb k' k then Some v else assoc k l'
  end.

(** A site given by the table of its pages and the table of its renders.
    A URL outside the tables does not load.  Tasks settle last first; a PDF
    byte stream has one page per character, and [!] makes it malformed.
    Saving a document without pages gives one blank page, as the PDF store
    does. *)
Definition siteWorld (pages : list (string * FetchOutcome))
    (renders : list (string * RenderOutcome)) : World :=
  {| RegExp_compile := Fragment.compile;
     fetch := fun u => default (GotoRejects "net::ERR_FAILED") (assoc u pages);
     render := fun u => default (StepThrows "net::ERR_FAILED") (assoc u renders);
     completionOrder := fun n => rev (seq 0 n);
     completionOrder_perm := fun n => Permutation_sym (Permutation_rev (seq 0 n));
     PDFPage := ascii;
     PDFDocument_load := fun b =>
       if Js.includes b "!" then inl "Failed to parse PDF document"
       else inr (list_ascii_of_string b);
     PDFDocument_save := fun pages =>
       match pages with
       | [] => " "
       | _ :: _ => string_of_list_ascii pages
       end;
     launch := None;
     cpus_length := 4;
     path_join := fun parts => String.concat "/" parts;
     fs_ensureDir := fun _ => None;
     fs_writeFile := fun _ _ => None |}.

(** A page that loads and shows the given links. *)
Definition pageWith (hrefs : list string) : FetchOutcome := Loaded (map Some hrefs) None.

(** The seed ends in a slash and the pages link to each other. *)
Definition slashSite : World :=
  siteWorld
    [("https://site.test/", pageWith ["https://site.test/"; "https://site.test/a"]);
     ("https://site.test", pageWith ["https://site.test/"; "https://site.test/a"]);
     ("https://site.test/a", pageWith ["https://site.test/"])]
    [("https://site.test/", Captured "1");
     ("https://site.test", Captured "1");
     ("https://site.test/a", Captured "23")].

(** A page linked with two trailing slashes and with one. *)
Definition doubleSlashSite : World :=
  siteWorld
    [("https://site.test/index", pageWith ["https://site.test/a//"; "https://site.test/a/"]);
     ("https://site.test/a/", pageWith []);
     ("https://site.test/a", pageWith [])]
    [].

(** The second page of the site times out during the crawl. *)
Definition timeoutSite : World :=
  siteWorld
    [("https://site.test/index", pageWith ["https://site.test/a"; "https://site.test/b"]);
     ("https://site.test/a", GotoRejects "Navigation timeout of 30000 ms exceeded");
     ("https://site.test/b", pageWith [])]
    [("https://site.test/index", Captured "1");
     ("https://site.test/a", Captured "2");
     ("https://site.test/b", Captured "3")].

(** A section whose index is linked with and without the trailing slash. *)
Definition docsSite : World :=
  siteWorld
    [("https://a.com/docs/", pageWith ["https://a.com/docs/"; "https://a.com/docs"]);
     ("https://a.com/docs", pageWith [])]
    [].

(** A seed with a fragment, on a page that links to itself. *)
Definition hashSite : World :=
  siteWorld [("https://a.com/#/home", pageWith ["https://a.com/#/home"])] [].

(** A page of [a.com] that links to another host. *)
Definition dotSite : World :=
  siteWorld
    [("https://a.com", pageWith ["https://a-com/x"]);
     ("https://a-com/x", pageWith [])]
    [("https://a.com", Captured "1");
     ("https://a-com/x", Captured "2")].

(** A seed with a query string, whose page links to its second page. *)
Definition querySite : World :=
  siteWorld
    [("https://a.com/search?q=1", pageWith ["https://a.com/search?q=1&page=2"]);
     ("https://a.com/search?q=1&page=2", pageWith [])]
    [("https://a.com/search?q=1", Captured "1");
     ("https://a.com/search?q=1&page=2", Captured "2")].

(** Three pages, the second of which fails to render. *)
Definition partialSite : World :=
  siteWorld []
    [("https://site.test/p1", Captured "12");
     ("https://site.test/p2", StepThrows "Navigation timeout of 30000 ms exceeded");
     ("https://site.test/p3", Captured "3")].

Definition outDir : Options := mkOptions None "out".
Definition outDirSeparate : Options := mkOptions (Some true) "out".

(** Two pages, the second of which is captured as bytes that do not parse. *)
Definition malformedSite : World :=
  siteWorld []
    [("https://site.test/p1", Captured "12");
     ("https://site.test/p2", Captured "!")].

(** [dotSite] on a machine where the browser cannot be launched. *)
Definition noBrowserSite : World :=
  {| RegExp_compile := RegExp_compile dotSite;
     fetch := fetch dotSite;
     render := render dotSite;
     completionOrder := completionOrder dotSite;
     completionOrder_perm := completionOrder_perm dotSite;
     PDFPage := PDFPage dotSite;
     PDFDocument_load := PDFDocument_load dotSite;
     PDFDocument_save := PDFDocument_save dotSite;
     launch := Some "Could not find Chrome";
     cpus_length := cpus_length dotSite;
     path_join := path_join dotSite;
     fs_ensureDir := fs_ensureDir dotSite;
     fs_writeFile := fs_writeFile dotSite |}.

(** [dotSite] on a disk where only the file of the seed page can be written. *)
Definition fullDiskSite : World :=
  {| RegExp_compile := RegExp_compile dotSite;
     fetch := fetch dotSite;
     render := render dotSite;
     completionOrder := completionOrder dotSite;
     completionOrder_perm := completionOrder_perm dotSite;
     PDFPage := PDFPage dotSite;
     PDFDocument_load := PDFDocument_load dotSite;
     PDFDocument_save := PDFDocument_save dotSite;
     launch := None;
     cpus_length := cpus_length dotSite;
     path_join := path_join dotSite;
     fs_ensureDir := fs_ensureDir dotSite;
     fs_writeFile := fun path _ =>
       if String.eqb path "out/a-com.pdf" then None else Some "ENOSPC: no space left on device" |}.

(** ** Rendering and merging in the earlier copy of the program (lines 98-174)

    There a render task returns the bytes alone, the results are merged
    without a check that any is left, and the merged document is returned
    whatever it holds. *)

Module Earlier.

(** Lines 100-144. *)
Definition generatePDFForPage (W : World) (link : string) : Settled (option Buffer) :=
  match render W link with
  | TabRejects e => Rejected (External e)
  | StepThrows _ => Fulfilled None
  | CloseRejects e => Rejected (External e)
  | Captured pdfBytes => Fulfilled (Some pdfBytes)
  end.





End Earlier.

(** The path of the file that [main] writes for a URL (lines 263-264, 270-271). *)
Definition outputFile (W : World) (options : Options) (pageUrl : string) : string :=
  path_join W [path_join W [outputPath options]; generateSlug pageUrl +:+ ".pdf"].

(** ** Vocabulary of the properties *)

(** The states a crawl goes through: the initial one and the one each call
    of [crawlPage] leaves, whether it returns or rejects. *)
Inductive crawlTrace (W : World) (pattern : string) (seed : string) : CrawlState -> Prop :=
| trace_init : crawlTrace W pattern seed (crawlInit seed)
| trace_page (st : CrawlState) (currentUrl : string) (rest : list string)
    (st' : CrawlState) (err : option error) :
    crawlTrace W pattern seed st ->
    queue st = currentUrl :: rest ->
    crawlPage W pattern currentUrl (mkCrawl (crawledUrls st) rest (navigations st)) = (st', err) ->
    crawlTrace W pattern seed st'.

Definition finalState (r : CrawlResult) : CrawlState :=
  match r with
  | Completed st | Aborted _ st | OutOfFuel st => st
  end.

(** [univ] holds the normalized form of every link that a page of
    [seed :: univ] keeps: the link graph reachable from the seed is finite. *)
Definition linkClosed (W : World) (pattern : string) (seed : string) (univ : list string) : bool :=
  forallb (fun p =>
             match fetch W p with
             | Loaded anchors _ =>
                 forallb (fun l => Js.arr_includes univ (normalizeURL l))
                         (subLinks W pattern anchors)
             | _ => true
             end)
          (seed :: univ).

(** The link passes the filter of lines 64-67. *)
Definition accepted (W : World) (pattern : string) (l : string) : Prop :=
  Js.includes l "#" = false /\ Js.includes l "mailto:" = false /\
  Js.includes l "tel:" = false /\
  exists test, RegExp_compile W pattern = Some test /\ test l = true.

(** [u] is the normalized form of an accepted link of a page that the crawl
    has navigated to. *)
Definition fromAcceptedLink (W : World) (pattern : string) (st : CrawlState) (u : string) : Prop :=
  exists p anchors close l,
    p ∈ navigations st /\ fetch W p = Loaded anchors close /\
    Some l ∈ anchors /\ accepted W pattern l /\ u = normalizeURL l.

(** The PDF that the render phase captures for a link, if any. *)
Definition captured (W : World) (link : string) : option Buffer :=
  match render W link with
  | Captured pdfBytes => Some pdfBytes
  | _ => None
  end.

(** The pages of the document rendered for a link; none when the render
    failed. *)
Definition pagesOf (W : World) (link : string) : list (PDFPage W) :=
  match captured W link with
  | Some pdfBytes =>
      match PDFDocument_load W pdfBytes with
      | inr pages => pages
      | inl _ => []
      end
  | None => []
  end.

(** Every captured PDF of [links] can be parsed. *)
Definition wellFormed (W : World) (links : list string) : bool :=
  forallb (fun l => match captured W l with
                    | Some pdfBytes =>
                        match PDFDocument_load W pdfBytes with
                        | inr _ => true
                        | inl _ => false
                        end
                    | None => true
                    end)
          links.

(** No link of [links] is captured: every render fails. *)
Definition allFail (W : World) (links : list string) : bool :=
  forallb (fun l => match captured W l with Some _ => false | None => true end) links.

(** Every link of [links] is captured. *)
Definition allCaptured (W : World) (links : list string) : bool :=
  forallb (fun l => match captured W l with Some _ => true | None => false end) links.

(** The per-page results of the links whose render succeeds, in the order
    of the links. *)
Definition capturedResults (W : World) (links : list string) : list PdfResult :=
  omap (fun l => mkPdf l <$> captured W l) links.

(** What the crawl keeps true of its state: the queue and the visited set
    hold no string twice and share none, and every navigation is to a
    string of the visited set, once. *)
Record CrawlInv (st : CrawlState) : Prop := mkCrawlInv {
  inv_queue : NoDup (queue st);
  inv_crawled : NoDup (crawledUrls st);
  inv_disjoint : forall u, u ∈ crawledUrls st -> u ∉ queue st;
  inv_navigations : NoDup (navigations st);
  inv_navigated : forall u, u ∈ navigations st -> u ∈ crawledUrls st
}.

(** Every string the crawl has visited or queued is one of [bound]. *)
Definition withinBounds (bound : list string) (st : CrawlState) : Prop :=
  forall u, u ∈ crawledUrls st \/ u ∈ queue st -> u ∈ bound.

(** Every character of [s] satisfies [p]. *)
Fixpoint allChars (p : ascii -> bool) (s : string) : bool :=
  match s with
  | EmptyString => true
  | String c s' => p c && allChars p s'
  end.

(** A lower-case letter, a digit, an underscore or a hyphen. *)
Definition isSlugChar (c : ascii) : bool :=
  let n := nat_of_ascii c in
  ((97 <=? n) && (n <=? 122)) || ((48 <=? n) && (n <=? 57)) || (n =? 95) || (n =? 45).

Definition isHyphen (c : ascii) : bool := Ascii.eqb c "-".

(** A url-pattern was passed to [main]: a [RegExp], or a non-empty string. *)
Definition patternGiven (urlPattern : option UrlPattern) : bool :=
  match urlPattern with
  | Some (PatRegExp _) => true
  | Some (PatString (String _ _)) => true
  | _ => false
  end.

(** What is logged when the PDF of [r] is written below [outputDir]. *)
Definition written (W : World) (outputDir : string) (r : PdfResult) : Event :=
  FileWritten (path_join W [outputDir; generateSlug (url r) +:+ ".pdf"]) (buffer r).

(** * Properties *)

(** ** Strings *)

Lemma startsWith_char (c : ascii) (s : string) (d : ascii) :
  Js.startsWith (String c s) (String d EmptyString) = Ascii.eqb c d.
Proof. simpl. by destruct (Ascii.eqb c d). Qed.

Lemma append_cons (a : ascii) (s r : string) :
  String a s +:+ r = String a (s +:+ r).
Proof. reflexivity. Qed.

Lemma startsWith_app (s t r : string) :
  Js.startsWith s t = true -> Js.startsWith (s +:+ r) t = true.
Proof.
  revert s. induction t as [|b t IH]; intros s; [done|].
  destruct s as [|a s]; [done|].
  rewrite append_cons. simpl.
  destruct (Ascii.eqb a b); [apply IH | done].
Qed.

Lemma includes_app (s t r : string) :
  Js.includes s t = true -> Js.includes (s +:+ r) t = true.
Proof.
  induction s as [|a s IH]; intros H.
  - destruct t; [by destruct r | done].
  - rewrite append_cons. cbn [Js.includes] in *.
    apply orb_true_iff in H as [H|H].
    + apply (startsWith_app _ _ r) in H. rewrite append_cons in H. by rewrite H.
    + rewrite (IH H). apply orb_true_r.
Qed.

Lemma split_0_prefix (s sep : string) :
  exists r, s = Js.split_0 s sep +:+ r.
Proof.
  induction s as [|c s [r IH]]; [by exists EmptyString|].
  cbn [Js.split_0]. destruct (Js.startsWith (String c s) sep).
  - by exists (String c s).
  - exists r. by rewrite append_cons, <- IH.
Qed.

Lemma slice_0_neg1_prefix (s : string) :
  exists r, s = Js.slice_0_neg1 s +:+ r.
Proof.
  induction s as [|c s [r IH]]; [by exists EmptyString|].
  cbn [Js.slice_0_neg1]. destruct s as [|d s].
  - by exists (String c EmptyString).
  - exists r. by rewrite append_cons, <- IH.
Qed.

Lemma append_assoc (a b c : string) : (a +:+ b) +:+ c = a +:+ (b +:+ c).
Proof. induction a as [|x a IH]; [done | by rewrite !append_cons, IH]. Qed.

(** The normalized URL is an initial part of the URL. *)
Lemma normalizeURL_prefix (u : string) :
  exists r, u = normalizeURL u +:+ r.
Proof.
  unfold normalizeURL.
  destruct (split_0_prefix u "#") as [r Hr].
  destruct (Js.endsWith (Js.split_0 u "#") "/"); [|by exists r].
  destruct (slice_0_neg1_prefix (Js.split_0 u "#")) as [r' Hr'].
  exists (r' +:+ r). by rewrite <- append_assoc, <- Hr', <- Hr.
Qed.

Lemma includes_normalizeURL (l m : string) :
  Js.includes (normalizeURL l) m = true -> Js.includes l m = true.
Proof.
  intros H. destruct (normalizeURL_prefix l) as [r Hr].
  rewrite Hr. by apply includes_app.
Qed.

Lemma split_0_hash_fixed (s : string) :
  Js.includes s "#" = false -> Js.split_0 s "#" = s.
Proof.
  induction s as [|c s IH]; [done|].
  cbn [Js.includes Js.split_0]. rewrite startsWith_char.
  destruct (Ascii.eqb c "#"); simpl; [done|].
  intros H. by rewrite (IH H).
Qed.

Lemma includes_split_0_hash (u : string) :
  Js.includes (Js.split_0 u "#") "#" = false.
Proof.
  induction u as [|c u IH]; [done|].
  cbn [Js.split_0]. rewrite startsWith_char.
  destruct (Ascii.eqb c "#") eqn:E; [done|].
  cbn [Js.includes]. by rewrite startsWith_char, E, IH.
Qed.

Lemma includes_slice_0_neg1 (s m : string) :
  Js.includes s m = false -> Js.includes (Js.slice_0_neg1 s) m = false.
Proof.
  intros H. destruct (Js.includes (Js.slice_0_neg1 s) m) eqn:E; [|done].
  destruct (slice_0_neg1_prefix s) as [r Hr].
  apply (includes_app _ _ r) in E. rewrite <- Hr in E. congruence.
Qed.

(** A normalized URL has no fragment marker. *)
Lemma normalizeURL_no_hash (u : string) :
  Js.includes (normalizeURL u) "#" = false.
Proof.
  unfold normalizeURL.
  destruct (Js.endsWith (Js.split_0 u "#") "/").
  - apply includes_slice_0_neg1, includes_split_0_hash.
  - apply includes_split_0_hash.
Qed.

Lemma endsWith_slash_twice (s : string) :
  Js.endsWith s "/" = true ->
  Js.endsWith (Js.slice_0_neg1 s) "/" = true ->
  Js.endsWith s "//" = true.
Proof.
  induction s as [|c s IH]; [done|].
  destruct s as [|d s]; [done|].
  destruct s as [|e s].
  - cbn. destruct (Ascii.eqb d "/") eqn:Ed; cbn; [|by rewrite ?orb_false_r].
    destruct (Ascii.eqb c "/") eqn:Ec; cbn; [|done].
    intros _ _. apply Ascii.eqb_eq in Ec, Ed. subst. done.
  - intros H1 H2.
    assert (Js.endsWith (String d (String e s)) "/" = true) as H1'.
    { cbn [Js.endsWith] in H1. cbn [Js.endsWith].
      apply orb_true_iff in H1 as [H1|H1]; [|done].
      apply String.eqb_eq in H1. done. }
    assert (Js.endsWith (Js.slice_0_neg1 (String d (String e s))) "/" = true) as H2'.
    { cbn [Js.slice_0_neg1] in H2. cbn [Js.endsWith] in H2.
      apply orb_true_iff in H2 as [H2|H2].
      - apply String.eqb_eq in H2. destruct s; done.
      - exact H2. }
    specialize (IH H1' H2').
    change (Js.endsWith (String c (String d (String e s))) "//")
      with (String.eqb (String c (String d (String e s))) "//"
            || Js.endsWith (String d (String e s)) "//").
    rewrite IH. apply orb_true_r.
Qed.

(** ** [normalizeURL] *)

Example normalizeURL_fragment :
  normalizeURL "https://a.com/p#frag" = "https://a.com/p".
Proof. reflexivity. Qed.

Example normalizeURL_trailing_slash :
  normalizeURL "https://a.com/p/" = normalizeURL "https://a.com/p".
Proof. reflexivity. Qed.

Example generateSlug_stable :
  generateSlug "https://Example.com/A/B.html" = "example-com-a-b-html".
Proof. reflexivity. Qed.

(** C7, as the specification states it, fails: of two trailing slashes the
    first call removes one and the second call the other. *)
Lemma normalizeURL_not_idempotent :
  normalizeURL (normalizeURL "https://a.com//") <> normalizeURL "https://a.com//".
Proof. vm_compute. discriminate. Qed.

(** C7, amended: [normalizeURL (normalizeURL u) = normalizeURL u] for every
    URL [u] whose text before the first [#] does not end in two slashes. *)
Theorem normalizeURL_idempotent (u : string) :
  Js.endsWith (Js.split_0 u "#") "//" = false ->
  normalizeURL (normalizeURL u) = normalizeURL u.
Proof.
  intros Hss. unfold normalizeURL at 2 3.
  pose proof (includes_split_0_hash u) as Hv.
  destruct (Js.endsWith (Js.split_0 u "#") "/") eqn:Hend.
  - unfold normalizeURL.
    rewrite (split_0_hash_fixed _ (includes_slice_0_neg1 _ _ Hv)).
    destruct (Js.endsWith (Js.slice_0_neg1 (Js.split_0 u "#")) "/") eqn:Hend2; [|done].
    rewrite (endsWith_slash_twice _ Hend Hend2) in Hss. discriminate.
  - unfold normalizeURL. by rewrite (split_0_hash_fixed _ Hv), Hend.
Qed.

Lemma normalizeURL_idempotent_witness :
  Js.endsWith (Js.split_0 "https://a.com/p/#frag" "#") "//" = false /\
  normalizeURL (normalizeURL "https://a.com/p/#frag") = normalizeURL "https://a.com/p/#frag".
Proof.
  split; [reflexivity|].
  apply (normalizeURL_idempotent "https://a.com/p/#frag"). reflexivity.
Defined.

(** ** The crawl keeps its invariant *)

Lemma arr_includes_true (arr : list string) (x : string) :
  Js.arr_includes arr x = true <-> x ∈ arr.
Proof.
  induction arr as [|y arr IH]; simpl.
  - split; [done | by intros ?%elem_of_nil].
  - rewrite orb_true_iff, String.eqb_eq, IH, elem_of_cons.
    split; (intros [?|?]; [left; congruence | by right]).
Qed.

Lemma arr_includes_false (arr : list string) (x : string) :
  Js.arr_includes arr x = false <-> x ∉ arr.
Proof.
  rewrite <- arr_includes_true. destruct (Js.arr_includes arr x); naive_solver.
Qed.

Lemma enqueue_cases (st : CrawlState) (link : string) :
  (enqueue st link = st) \/
  ((normalizeURL link ∉ crawledUrls st) /\ (normalizeURL link ∉ queue st) /\
   enqueue st link =
     mkCrawl (crawledUrls st) (queue st ++ [normalizeURL link]) (navigations st)).
Proof.
  unfold enqueue, Set_has.
  destruct (Js.arr_includes (crawledUrls st) (normalizeURL link)) eqn:E1; [by left|].
  destruct (Js.arr_includes (queue st) (normalizeURL link)) eqn:E2; [by left|].
  right. by rewrite arr_includes_false in E1, E2.
Qed.

Lemma enqueue_inv (st : CrawlState) (link : string) :
  CrawlInv st -> CrawlInv (enqueue st link).
Proof.
  intros [Hq Hc Hd Hn Hnc].
  destruct (enqueue_cases st link) as [->|(H1 & H2 & ->)]; [done|].
  constructor; simpl; try done.
  - apply NoDup_app. split_and!; [done | | apply NoDup_singleton].
    intros x Hx ->%list_elem_of_singleton. done.
  - intros u Hu [Hin| ->%list_elem_of_singleton]%elem_of_app; [by eapply Hd | done].
Qed.

Lemma enqueue_all_inv (ls : list string) (st : CrawlState) :
  CrawlInv st -> CrawlInv (fold_left enqueue ls st).
Proof.
  revert st. induction ls as [|l ls IH]; intros st H; [done|].
  simpl. by apply IH, enqueue_inv.
Qed.

Lemma enqueue_all_crawled (ls : list string) (st : CrawlState) :
  crawledUrls (fold_left enqueue ls st) = crawledUrls st /\
  navigations (fold_left enqueue ls st) = navigations st.
Proof.
  revert st. induction ls as [|l ls IH]; intros st; [done|].
  simpl. destruct (IH (enqueue st l)) as [-> ->].
  by destruct (enqueue_cases st l) as [->|(_ & _ & ->)].
Qed.

(** The state [crawlPage] starts from when [currentUrl] has just been
    shifted off a queue that satisfies the invariant. *)
Lemma crawlPage_fresh (W : World) (pattern : string) (st : CrawlState)
    (currentUrl : string) (rest : list string) :
  CrawlInv st -> queue st = currentUrl :: rest ->
  Set_has (crawledUrls st) currentUrl = false /\
  CrawlInv (mkCrawl (crawledUrls st ++ [currentUrl]) rest (navigations st)) /\
  CrawlInv (mkCrawl (crawledUrls st ++ [currentUrl]) rest (navigations st ++ [currentUrl])).
Proof.
  intros [Hq Hc Hd Hn Hnc] Hqueue. rewrite Hqueue in Hq, Hd.
  apply NoDup_cons in Hq as [Hnotin Hrest].
  assert (currentUrl ∉ crawledUrls st) as Hfresh.
  { intros Hin. apply (Hd _ Hin). by left. }
  assert (NoDup (crawledUrls st ++ [currentUrl])) as Hc'.
  { apply NoDup_app. split_and!; [done | | apply NoDup_singleton].
    by intros x Hx ->%list_elem_of_singleton. }
  assert (forall u, u ∈ crawledUrls st ++ [currentUrl] -> u ∉ rest) as Hd'.
  { intros u [Hu| ->%list_elem_of_singleton]%elem_of_app; [|done].
    intros Hin. apply (Hd _ Hu). by right. }
  split; [by apply arr_includes_false|].
  split; constructor; simpl; try done.
  - intros u Hu. apply elem_of_app. left. by apply Hnc.
  - apply NoDup_app. split_and!; [done | | apply NoDup_singleton].
    intros x Hx ->%list_elem_of_singleton. by apply Hfresh, Hnc.
  - intros u [Hu| ->%list_elem_of_singleton]%elem_of_app; apply elem_of_app.
    + left. by apply Hnc.
    + right. by apply list_elem_of_singleton.
Qed.

Lemma crawlPage_inv (W : World) (pattern : string) (st st' : CrawlState)
    (currentUrl : string) (rest : list string) (err : option error) :
  CrawlInv st -> queue st = currentUrl :: rest ->
  crawlPage W pattern currentUrl (mkCrawl (crawledUrls st) rest (navigations st)) = (st', err) ->
  CrawlInv st'.
Proof.
  intros Hinv Hqueue. destruct (crawlPage_fresh W pattern st currentUrl rest Hinv Hqueue)
    as (Hfresh & Hinv1 & Hinv2).
  unfold crawlPage, Set_add. simpl. rewrite Hfresh.
  destruct (fetch W currentUrl); intros [= <- <-]; try done.
  by apply enqueue_all_inv.
Qed.

Lemma crawlInit_inv (seed : string) : CrawlInv (crawlInit seed).
Proof.
  constructor; simpl; try apply NoDup_nil_2; [apply NoDup_singleton | |];
    by intros u ?%elem_of_nil.
Qed.

Lemma crawlTrace_inv (W : World) (pattern seed : string) (st : CrawlState) :
  crawlTrace W pattern seed st -> CrawlInv st.
Proof.
  induction 1 as [|st u rest st' err _ IH Hq Hp]; [apply crawlInit_inv|].
  by eapply crawlPage_inv.
Qed.

(** The loop only ever stops in a state of the trace. *)
Lemma crawlLoop_trace (W : World) (pattern seed : string) (fuel : nat) (st : CrawlState) :
  crawlTrace W pattern seed st ->
  crawlTrace W pattern seed (finalState (crawlLoop W pattern fuel st)).
Proof.
  revert st. induction fuel as [|fuel IH]; intros st Htr.
  - simpl. by destruct (queue st).
  - simpl. destruct (queue st) as [|u rest] eqn:Hq; [done|].
    destruct (crawlPage W pattern u _) as [st' [e|]] eqn:Hp.
    + simpl. by eapply trace_page.
    + apply IH. by eapply trace_page.
Qed.

Lemma crawlLoop_completed (W : World) (pattern : string) (fuel : nat) (st st' : CrawlState) :
  crawlLoop W pattern fuel st = Completed st' -> queue st' = [].
Proof.
  revert st. induction fuel as [|fuel IH]; intros st; simpl.
  - destruct (queue st) eqn:Hq; [|done]. by intros [= <-].
  - destruct (queue st) as [|u rest] eqn:Hq; [by intros [= <-]|].
    destruct (crawlPage W pattern u _) as [st1 [e|]]; [done|]. apply IH.
Qed.

(** ** The crawl terminates on a finite link graph *)

Lemma linkClosed_spec (W : World) (pattern seed : string) (univ : list string) :
  linkClosed W pattern seed univ = true ->
  forall p anchors close l,
    p ∈ seed :: univ -> fetch W p = Loaded anchors close ->
    l ∈ subLinks W pattern anchors -> normalizeURL l ∈ univ.
Proof.
  unfold linkClosed. rewrite forallb_forall.
  intros H p anchors close l Hp Hfetch Hl.
  specialize (H p (proj1 (list_elem_of_In _ _) Hp)). rewrite Hfetch in H.
  rewrite forallb_forall in H.
  apply arr_includes_true, H, list_elem_of_In, Hl.
Qed.

Lemma enqueue_all_bounds (seed : string) (univ ls : list string) (st : CrawlState) :
  (forall l, l ∈ ls -> normalizeURL l ∈ univ) ->
  withinBounds (seed :: univ) st ->
  withinBounds (seed :: univ) (fold_left enqueue ls st).
Proof.
  revert st. induction ls as [|l ls IH]; intros st Hls Hb; [done|].
  simpl. apply IH; [intros l' Hl'; apply Hls; by right|].
  destruct (enqueue_cases st l) as [->|(_ & _ & ->)]; [done|].
  intros u [Hu|Hu]; simpl in Hu.
  - apply Hb. by left.
  - apply elem_of_app in Hu as [Hu| ->%list_elem_of_singleton].
    + apply Hb. by right.
    + right. apply Hls. by left.
Qed.

(** One iteration from a state that satisfies the invariant: the visited
    set gains exactly [currentUrl]. *)
Lemma crawlPage_step (W : World) (pattern seed : string) (univ : list string)
    (st st' : CrawlState) (currentUrl : string) (rest : list string) (err : option error) :
  linkClosed W pattern seed univ = true ->
  CrawlInv st -> withinBounds (seed :: univ) st -> queue st = currentUrl :: rest ->
  crawlPage W pattern currentUrl (mkCrawl (crawledUrls st) rest (navigations st)) = (st', err) ->
  crawledUrls st' = crawledUrls st ++ [currentUrl] /\
  withinBounds (seed :: univ) st' /\
  (err = None -> exists anchors, fetch W currentUrl = Loaded anchors None).
Proof.
  intros Hclosed Hinv Hb Hqueue.
  destruct (crawlPage_fresh W pattern st currentUrl rest Hinv Hqueue) as (Hfresh & _ & _).
  assert (currentUrl ∈ seed :: univ) as Hcur.
  { apply Hb. right. rewrite Hqueue. by left. }
  assert (withinBounds (seed :: univ)
            (mkCrawl (crawledUrls st ++ [currentUrl]) rest (navigations st ++ [currentUrl]))) as Hb2.
  { intros u [Hu|Hu]; simpl in Hu.
    - apply elem_of_app in Hu as [Hu| ->%list_elem_of_singleton]; [|done].
      apply Hb. by left.
    - apply Hb. right. rewrite Hqueue. by right. }
  unfold crawlPage, Set_add. simpl. rewrite Hfresh.
  destruct (fetch W currentUrl) as [m|m|m|anchors close] eqn:Hfetch;
    intros [= <- <-]; simpl; try (split_and!; [done | | done]).
  - intros u [Hu|Hu]; apply Hb2; simpl; [by left | by right].
  - done.
  - done.
  - destruct (enqueue_all_crawled (subLinks W pattern anchors)
      (mkCrawl (crawledUrls st ++ [currentUrl]) rest (navigations st ++ [currentUrl])))
      as [Hc _].
    split_and!; [done | |].
    + apply enqueue_all_bounds; [|done].
      intros l Hl. by eapply linkClosed_spec.
    + destruct close; [done|]. intros _. by exists anchors.
Qed.

Lemma crawlLoop_terminates (W : World) (pattern seed : string) (univ : list string)
    (fuel : nat) (st : CrawlState) :
  linkClosed W pattern seed univ = true ->
  CrawlInv st -> withinBounds (seed :: univ) st ->
  S (length univ) <= fuel + length (crawledUrls st) ->
  exists st',
    (crawlLoop W pattern fuel st = Completed st' /\ queue st' = []) \/
    (exists e p, crawlLoop W pattern fuel st = Aborted e st' /\ p ∈ seed :: univ /\
                 forall anchors, fetch W p <> Loaded anchors None).
Proof.
  intros Hclosed. revert st. induction fuel as [|fuel IH]; intros st Hinv Hb Hfuel.
  - simpl. destruct (queue st) as [|u rest] eqn:Hq; [exists st; by left|].
    exfalso.
    destruct (crawlPage_fresh W pattern st u rest Hinv Hq) as (_ & [_ Hc _ _ _] & _).
    simpl in Hc. apply NoDup_submseteq with (k := seed :: univ) in Hc.
    + apply submseteq_length in Hc. rewrite length_app in Hc. simpl in *. lia.
    + intros x [Hx| ->%list_elem_of_singleton]%elem_of_app; apply Hb;
        [by left | right; rewrite Hq; by left].
  - simpl. destruct (queue st) as [|u rest] eqn:Hq; [exists st; by left|].
    destruct (crawlPage W pattern u _) as [st1 err] eqn:Hp.
    destruct (crawlPage_step W pattern seed univ st st1 u rest err Hclosed Hinv Hb Hq Hp)
      as (Hc1 & Hb1 & Herr).
    destruct err as [e|].
    + exists st1. right. exists e, u. split_and!; [done | |].
      * apply Hb. right. rewrite Hq. by left.
      * intros anchors Hf.
        destruct (crawlPage_fresh W pattern st u rest Hinv Hq) as (Hfresh & _ & _).
        unfold crawlPage, Set_add in Hp. simpl in Hp. rewrite Hfresh, Hf in Hp.
        simpl in Hp. congruence.
    + apply IH; [by eapply crawlPage_inv | done |].
      rewrite Hc1, length_app. simpl. lia.
Qed.

(** C1, as the specification states it, fails: strings are compared, not
    normalized forms.  The normalized forms of two links that end in two
    slashes and in one are different strings with the same normalized form,
    and both are queued and navigated to ([doubleSlashSite]); and the seed is
    queued as it is given, so a seed that ends in a slash is navigated to
    once as given and once in the normalized form of a link back to it
    ([slashSite]). *)
Lemma crawl_fetches_one_target_twice :
  (exists rest,
     crawlPage doubleSlashSite "^https://site.test/" "https://site.test/index"
       (mkCrawl [] [] []) =
       (mkCrawl ["https://site.test/index"] ["https://site.test/a/"; "https://site.test/a"] rest,
        None) /\
     ~ NoDup (map normalizeURL ["https://site.test/a/"; "https://site.test/a"])) /\
  (exists st,
     crawl doubleSlashSite "https://site.test/index" (mkRegExp "^https://site.test/") 10 =
       Completed st /\
     navigations st = ["https://site.test/index"; "https://site.test/a/"; "https://site.test/a"] /\
     ~ NoDup (map normalizeURL (navigations st))) /\
  (exists st,
     crawl slashSite "https://site.test/" (mkRegExp "^https://site.test/") 10 = Completed st /\
     navigations st = ["https://site.test/"; "https://site.test"; "https://site.test/a"] /\
     ~ NoDup (map normalizeURL (navigations st))).
Proof.
  split_and!.
  - eexists. split; [vm_compute; reflexivity|].
    vm_compute. intros H. apply NoDup_cons in H as [H _]. apply H. by left.
  - eexists. split_and!; [vm_compute; reflexivity | reflexivity |].
    vm_compute. intros H. apply NoDup_cons in H as [_ H].
    apply NoDup_cons in H as [H _]. apply H. by left.
  - eexists. split_and!; [vm_compute; reflexivity | reflexivity |].
    vm_compute. intros H. apply NoDup_cons in H as [H _]. apply H. by left.
Qed.

(** Compared as strings: in every state of a crawl no string has been
    navigated to twice, the queue holds no string twice, and no string of
    the visited set is in the queue; and when the links reachable from the
    seed lie in a finite set, the loop stops within as many iterations as the
    set has elements plus one, with the queue empty unless the fetch of one
    of the pages rejected. *)
Theorem crawl_visits_each_string_once (W : World) (seed : string) (urlPattern : RegExp) :
  (forall st, crawlTrace W (source urlPattern) seed st ->
     NoDup (navigations st) /\ NoDup (queue st) /\
     (forall u, u ∈ crawledUrls st -> u ∉ queue st)) /\
  (forall univ fuel,
     linkClosed W (source urlPattern) seed univ = true -> length univ < fuel ->
     exists st,
       (crawl W seed urlPattern fuel = Completed st /\ queue st = []) \/
       (exists e p, crawl W seed urlPattern fuel = Aborted e st /\ p ∈ seed :: univ /\
                    forall anchors, fetch W p <> Loaded anchors None)).
Proof.
  split.
  - intros st Htr. destruct (crawlTrace_inv _ _ _ _ Htr) as [Hq _ Hd Hn _]. done.
  - intros univ fuel Hclosed Hfuel. unfold crawl.
    apply (crawlLoop_terminates W (source urlPattern) seed univ); [done | | |].
    + apply crawlInit_inv.
    + intros u [Hu|Hu]; simpl in Hu; [by apply elem_of_nil in Hu|].
      apply list_elem_of_singleton in Hu as ->. by left.
    + simpl. lia.
Qed.

Lemma crawl_visits_each_string_once_witness :
  linkClosed slashSite "^https://site.test/" "https://site.test/"
    ["https://site.test"; "https://site.test/a"] = true /\
  2 < 3 /\
  exists st,
    (crawl slashSite "https://site.test/" (mkRegExp "^https://site.test/") 3 = Completed st /\
     queue st = []) \/
    (exists e p,
       crawl slashSite "https://site.test/" (mkRegExp "^https://site.test/") 3 = Aborted e st /\
       p ∈ ["https://site.test/"; "https://site.test"; "https://site.test/a"] /\
       forall anchors, fetch slashSite p <> Loaded anchors None).
Proof.
  split; [reflexivity|]. split; [lia|].
  apply (proj2 (crawl_visits_each_string_once slashSite "https://site.test/"
                  (mkRegExp "^https://site.test/"))
               ["https://site.test"; "https://site.test/a"] 3); [reflexivity | simpl; lia].
Defined.

(** ** The seed comes first *)

Lemma crawlPage_crawled (W : World) (pattern : string) (st st' : CrawlState)
    (currentUrl : string) (rest : list string) (err : option error) :
  CrawlInv st -> queue st = currentUrl :: rest ->
  crawlPage W pattern currentUrl (mkCrawl (crawledUrls st) rest (navigations st)) = (st', err) ->
  crawledUrls st' = crawledUrls st ++ [currentUrl] /\
  (forall p, p ∈ navigations st -> p ∈ navigations st').
Proof.
  intros Hinv Hqueue.
  destruct (crawlPage_fresh W pattern st currentUrl rest Hinv Hqueue) as (Hfresh & _ & _).
  unfold crawlPage, Set_add. simpl. rewrite Hfresh.
  destruct (fetch W currentUrl) as [m|m|m|anchors close];
    intros [= <- <-]; simpl;
    try (split; [done|]; intros p Hp; first [done | apply elem_of_app; by left]).
  destruct (enqueue_all_crawled (subLinks W pattern anchors)
    (mkCrawl (crawledUrls st ++ [currentUrl]) rest (navigations st ++ [currentUrl])))
    as [-> ->].
  split; [done|]. intros p Hp. simpl. apply elem_of_app. by left.
Qed.

Lemma crawlTrace_seed_first (W : World) (pattern seed : string) (st : CrawlState) :
  crawlTrace W pattern seed st ->
  (crawledUrls st = [] /\ queue st = [seed]) \/ (exists t, crawledUrls st = seed :: t).
Proof.
  induction 1 as [|st u rest st' err Htr IH Hq Hp]; [by left|].
  right. pose proof (crawlTrace_inv _ _ _ _ Htr) as Hinv.
  destruct (crawlPage_crawled _ _ _ _ _ _ _ Hinv Hq Hp) as [-> _].
  destruct IH as [[-> Hseed]|[t ->]].
  - rewrite Hseed in Hq. injection Hq as <- _. by exists [].
  - by exists (t ++ [u]).
Qed.

(** C6: when the crawl completes, the list handed to the render phase starts
    with the seed, which is in the visited set and occurs only once, whether
    or not any page links back to it. *)
Theorem seed_is_first (W : World) (seed : string) (urlPattern : RegExp)
    (fuel : nat) (st : CrawlState) :
  crawl W seed urlPattern fuel = Completed st ->
  seed ∈ crawledUrls st /\
  exists rest, uniqueSubLinks seed st = seed :: rest /\ seed ∉ rest.
Proof.
  intros Hcrawl.
  pose proof (crawlLoop_trace W (source urlPattern) seed fuel (crawlInit seed)
                (trace_init _ _ _)) as Htr.
  fold (crawl W seed urlPattern fuel) in Htr. rewrite Hcrawl in Htr. simpl in Htr.
  pose proof (crawlLoop_completed _ _ _ _ _ Hcrawl) as Hempty.
  destruct (crawlTrace_seed_first _ _ _ _ Htr) as [[_ Hq]|[t Ht]]; [congruence|].
  destruct (crawlTrace_inv _ _ _ _ Htr) as [_ Hc _ _ _].
  rewrite Ht in Hc. apply NoDup_cons in Hc as [Hnotin _].
  split; [rewrite Ht; by left|].
  exists t. split; [|done].
  unfold uniqueSubLinks. rewrite Ht. simpl. by rewrite String.eqb_refl.
Qed.

Lemma seed_is_first_witness :
  crawl dotSite "https://a.com" (mkRegExp "^https://a.com") 5 =
    Completed (mkCrawl ["https://a.com"; "https://a-com/x"] []
                       ["https://a.com"; "https://a-com/x"]) /\
  "https://a.com" ∈ ["https://a.com"; "https://a-com/x"] /\
  exists rest,
    uniqueSubLinks "https://a.com"
      (mkCrawl ["https://a.com"; "https://a-com/x"] [] ["https://a.com"; "https://a-com/x"])
    = "https://a.com" :: rest /\ "https://a.com" ∉ rest.
Proof.
  split; [reflexivity|].
  apply (seed_is_first dotSite "https://a.com" (mkRegExp "^https://a.com") 5
           (mkCrawl ["https://a.com"; "https://a-com/x"] []
                    ["https://a.com"; "https://a-com/x"])).
  reflexivity.
Defined.

(** ** What enters the visited set *)

Lemma evalLink_accepted (W : World) (pattern : string) (a : option string) (l : string) :
  evalLink W pattern a = Some l -> a = Some l /\ accepted W pattern l.
Proof.
  unfold evalLink, accepted. destruct a as [r|]; [|done].
  destruct (Js.includes r "#") eqn:E1; [done|].
  destruct (Js.includes r "mailto:") eqn:E2; [done|].
  destruct (Js.includes r "tel:") eqn:E3; [done|]. simpl.
  destruct (RegExp_compile W pattern) as [test|]; [|done].
  destruct (test r) eqn:Ht; [|done].
  intros [= <-]. split_and!; try done. eexists. split; [reflexivity | exact Ht].
Qed.

Lemma subLinks_accepted (W : World) (pattern : string) (anchors : list (option string))
    (l : string) :
  l ∈ subLinks W pattern anchors -> Some l ∈ anchors /\ accepted W pattern l.
Proof.
  unfold subLinks. intros (x & Hx & Hid)%list_elem_of_omap. simpl in Hid. subst x.
  apply list_elem_of_In, filter_In in Hx as [Hx _].
  apply in_map_iff in Hx as (a & Ha & Hin).
  apply evalLink_accepted in Ha as [-> Hacc].
  split; [by apply list_elem_of_In | done].
Qed.

Lemma fromAcceptedLink_mono (W : World) (pattern : string) (st st' : CrawlState) (u : string) :
  (forall p, p ∈ navigations st -> p ∈ navigations st') ->
  fromAcceptedLink W pattern st u -> fromAcceptedLink W pattern st' u.
Proof.
  intros Hsub (p & anchors & close & l & Hp & H). exists p, anchors, close, l.
  split; [by apply Hsub | done].
Qed.

Lemma enqueue_all_members (ls : list string) (st : CrawlState) (u : string) :
  u ∈ queue (fold_left enqueue ls st) ->
  u ∈ queue st \/ exists l, l ∈ ls /\ u = normalizeURL l.
Proof.
  revert st. induction ls as [|l ls IH]; intros st; [by left|].
  simpl. intros [Hu|(l' & Hl' & ->)]%IH.
  - destruct (enqueue_cases st l) as [Heq|(_ & _ & Heq)]; rewrite Heq in Hu; [by left|].
    simpl in Hu. apply elem_of_app in Hu as [Hu| ->%list_elem_of_singleton]; [by left|].
    right. exists l. split; [by left | done].
  - right. exists l'. split; [by right | done].
Qed.

Lemma crawlTrace_provenance (W : World) (pattern seed : string) (st : CrawlState) (u : string) :
  crawlTrace W pattern seed st ->
  u ∈ crawledUrls st \/ u ∈ queue st ->
  u = seed \/ fromAcceptedLink W pattern st u.
Proof.
  intros Htr. revert u.
  induction Htr as [|st c rest st' err Htr IH Hq Hp]; intros u Hu.
  - left. destruct Hu as [Hu|Hu]; simpl in Hu; [by apply elem_of_nil in Hu|].
    by apply list_elem_of_singleton in Hu.
  - pose proof (crawlTrace_inv _ _ _ _ Htr) as Hinv.
    destruct (crawlPage_crawled _ _ _ _ _ _ _ Hinv Hq Hp) as [Hc Hnav].
    assert (forall v, v ∈ crawledUrls st \/ v ∈ queue st ->
                      v = seed \/ fromAcceptedLink W pattern st' v) as Hold.
    { intros v Hv. destruct (IH v Hv) as [->|Hf]; [by left|].
      right. by eapply fromAcceptedLink_mono. }
    destruct Hu as [Hu|Hu].
    { rewrite Hc in Hu. apply Hold.
      apply elem_of_app in Hu as [Hu| ->%list_elem_of_singleton]; [by left|].
      right. rewrite Hq. by left. }
    destruct (crawlPage_fresh W pattern st c rest Hinv Hq) as (Hfresh & _ & _).
    unfold crawlPage, Set_add in Hp. simpl in Hp. rewrite Hfresh in Hp.
    destruct (fetch W c) as [m|m|m|anchors close] eqn:Hfetch;
      injection Hp as <- <-; simpl in Hu;
      try (apply Hold; right; rewrite Hq; by right).
    apply enqueue_all_members in Hu as [Hu|(l & Hl & ->)].
    + simpl in Hu. apply Hold. right. rewrite Hq. by right.
    + right. apply subLinks_accepted in Hl as [Hin Hacc].
      exists c, anchors, close, l. split_and!; try done.
      destruct (enqueue_all_crawled (subLinks W pattern anchors)
        (mkCrawl (crawledUrls st ++ [c]) rest (navigations st ++ [c]))) as [_ ->].
      simpl. apply elem_of_app. right. by apply list_elem_of_singleton.
Qed.

(** C5, as the specification states it, fails in both halves.  A link that
    the pattern rejects is in the visited set when it is the normalized form
    of a link that the pattern keeps ([docsSite]); a link with a fragment is
    in the visited set when it is the seed ([hashSite]). *)
Lemma crawl_scope_counterexample :
  (exists st test,
     crawl docsSite "https://a.com/docs/" (mkRegExp "^https://a.com/docs/") 10 = Completed st /\
     fetch docsSite "https://a.com/docs/" =
       Loaded [Some "https://a.com/docs/"; Some "https://a.com/docs"] None /\
     RegExp_compile docsSite "^https://a.com/docs/" = Some test /\
     test "https://a.com/docs" = false /\
     "https://a.com/docs" ∈ crawledUrls st) /\
  (exists st,
     crawl hashSite "https://a.com/#/home" (mkRegExp "^https://a.com/#/home") 10 = Completed st /\
     fetch hashSite "https://a.com/#/home" = Loaded [Some "https://a.com/#/home"] None /\
     Js.includes "https://a.com/#/home" "#" = true /\
     "https://a.com/#/home" ∈ crawledUrls st).
Proof.
  split.
  - eexists _, _. split_and!; [vm_compute; reflexivity | reflexivity | reflexivity
                               | reflexivity |].
    simpl. apply elem_of_cons. right. apply elem_of_cons. by left.
  - eexists. split_and!; [vm_compute; reflexivity | reflexivity | reflexivity |].
    simpl. apply elem_of_cons. by left.
Qed.

(** C5, amended: in every state of a crawl, a member of the visited set
    other than the seed is the normalized form of a link, found on a page the
    crawl navigated to, that satisfies the pattern and contains none of [#],
    [mailto:] and [tel:]; and such a member contains none of the three. *)
Theorem crawl_scope (W : World) (seed : string) (urlPattern : RegExp)
    (st : CrawlState) (u : string) :
  crawlTrace W (source urlPattern) seed st ->
  u ∈ crawledUrls st -> u <> seed ->
  fromAcceptedLink W (source urlPattern) st u /\
  Js.includes u "#" = false /\ Js.includes u "mailto:" = false /\
  Js.includes u "tel:" = false.
Proof.
  intros Htr Hu Hne.
  destruct (crawlTrace_provenance W _ seed st u Htr (or_introl Hu)) as [->|Hfrom]; [done|].
  split; [done|].
  destruct Hfrom as (p & anchors & close & l & _ & _ & _ & (H1 & H2 & H3 & _) & ->).
  split_and!.
  - apply normalizeURL_no_hash.
  - destruct (Js.includes (normalizeURL l) "mailto:") eqn:E; [|done].
    apply includes_normalizeURL in E. congruence.
  - destruct (Js.includes (normalizeURL l) "tel:") eqn:E; [|done].
    apply includes_normalizeURL in E. congruence.
Qed.

Lemma crawl_scope_witness :
  crawlTrace docsSite "^https://a.com/docs/" "https://a.com/docs/"
    (mkCrawl ["https://a.com/docs/"; "https://a.com/docs"] []
             ["https://a.com/docs/"; "https://a.com/docs"]) /\
  "https://a.com/docs" ∈ ["https://a.com/docs/"; "https://a.com/docs"] /\
  "https://a.com/docs" <> "https://a.com/docs/" /\
  fromAcceptedLink docsSite "^https://a.com/docs/"
    (mkCrawl ["https://a.com/docs/"; "https://a.com/docs"] []
             ["https://a.com/docs/"; "https://a.com/docs"]) "https://a.com/docs" /\
  Js.includes "https://a.com/docs" "#" = false /\
  Js.includes "https://a.com/docs" "mailto:" = false /\
  Js.includes "https://a.com/docs" "tel:" = false.
Proof.
  assert (crawlTrace docsSite "^https://a.com/docs/" "https://a.com/docs/"
            (mkCrawl ["https://a.com/docs/"; "https://a.com/docs"] []
                     ["https://a.com/docs/"; "https://a.com/docs"])) as Htr.
  { exact (crawlLoop_trace docsSite "^https://a.com/docs/" "https://a.com/docs/" 5
             (crawlInit "https://a.com/docs/") (trace_init _ _ _)). }
  assert ("https://a.com/docs" ∈ ["https://a.com/docs/"; "https://a.com/docs"]) as Hin.
  { apply elem_of_cons. right. apply elem_of_cons. by left. }
  split; [exact Htr|]. split; [exact Hin|]. split; [discriminate|].
  apply (crawl_scope docsSite "https://a.com/docs/" (mkRegExp "^https://a.com/docs/")
           _ "https://a.com/docs" Htr); [exact Hin | discriminate].
Defined.

(** ** A failed fetch during the crawl *)

Lemma crawlLoop_failed_fetch (W : World) (pattern : string) (fuel : nat) (st : CrawlState)
    (currentUrl : string) (rest : list string) (message : string) :
  queue st = currentUrl :: rest ->
  Set_has (crawledUrls st) currentUrl = false ->
  fetch W currentUrl = GotoRejects message ->
  crawlLoop W pattern (S fuel) st =
    Aborted (External message)
      (mkCrawl (crawledUrls st ++ [currentUrl]) rest (navigations st ++ [currentUrl])).
Proof.
  intros Hq Hfresh Hfetch. simpl. rewrite Hq.
  unfold crawlPage, Set_add. simpl. by rewrite Hfresh, Hfetch.
Qed.

(** C2 does not hold of the program: [crawlPage] has a [finally] but no
    [catch], so the rejection of [page.goto] leaves the [while] loop and
    [generatePDF].  Here the second of three pages times out: the third is
    never fetched, no list of pages is produced, and [main] reports the
    error without writing a file.  (The render phase, lines 161-163, does
    catch the same failure and goes on.) *)
Theorem crawl_aborts_on_failed_fetch :
  fetch timeoutSite "https://site.test/a" =
    GotoRejects "Navigation timeout of 30000 ms exceeded" /\
  crawl timeoutSite "https://site.test/index" (mkRegExp "^https://site.test/") 10 =
    Aborted (External "Navigation timeout of 30000 ms exceeded")
      (mkCrawl ["https://site.test/index"; "https://site.test/a"]
               ["https://site.test/b"]
               ["https://site.test/index"; "https://site.test/a"]) /\
  generatePDF timeoutSite 10 "https://site.test/index" (mkRegExp "^https://site.test/") 4 false =
    Throws (External "Navigation timeout of 30000 ms exceeded") /\
  main timeoutSite 10 "https://site.test/index" (Some (PatString "^https://site.test/")) outDir =
    (Returns tt,
     [BrowserLaunched; ErrorReported (External "Navigation timeout of 30000 ms exceeded");
      BrowserClosed]).
Proof. split_and!; reflexivity. Qed.

(** ** Render results and their order *)

Lemma settle_length {A : Type} (outcomes : list A) (order : list nat)
    (values : list (option A)) :
  length (fold_left (settleAt outcomes) order values) = length values.
Proof.
  revert values. induction order as [|j order IH]; intros values; [done|].
  simpl. rewrite IH. apply length_insert.
Qed.

Lemma settle_lookup {A : Type} (outcomes : list A) (order : list nat)
    (values : list (option A)) (i : nat) :
  i < length values ->
  fold_left (settleAt outcomes) order values !! i =
    if decide (i ∈ order) then Some (outcomes !! i) else values !! i.
Proof.
  revert values. induction order as [|j order IH]; intros values Hi.
  - simpl. destruct (decide (i ∈ [])) as [Hin|_]; [by apply elem_of_nil in Hin | done].
  - simpl. rewrite IH by (unfold settleAt; by rewrite length_insert).
    destruct (decide (i ∈ order)) as [Hin|Hnin].
    + rewrite decide_True; [done | by right].
    + destruct (decide (i = j)) as [->|Hne].
      * rewrite decide_True by (by left). unfold settleAt.
        by rewrite list_lookup_insert_eq.
      * rewrite decide_False.
        -- unfold settleAt. by rewrite list_lookup_insert_ne.
        -- intros [?|?]%elem_of_cons; done.
Qed.

(** Whatever the order in which the tasks settle, the aggregate resolves
    with the outcomes in the order of the tasks. *)
Lemma allSettled_in_task_order {A : Type} (outcomes : list A) (order : list nat) :
  order ≡ₚ seq 0 (length outcomes) ->
  Promise_allSettled order outcomes = Some outcomes.
Proof.
  intros Hperm. unfold Promise_allSettled. apply mapM_Some_2.
  apply Forall2_same_length_lookup_2.
  - by rewrite settle_length, length_replicate.
  - intros i x y Hx Hy.
    apply lookup_lt_Some in Hy as Hlt.
    rewrite settle_lookup in Hx by (by rewrite length_replicate).
    rewrite decide_True in Hx.
    + simpl. congruence.
    + rewrite Hperm. apply elem_of_seq. lia.
Qed.

(** Until every task has settled the aggregate is pending. *)
Lemma allSettled_pending {A : Type} (outcomes : list A) (order : list nat) (i : nat) :
  i < length outcomes -> i ∉ order ->
  Promise_allSettled order outcomes = None.
Proof.
  intros Hi Hnin. unfold Promise_allSettled.
  destruct (mapM id _) as [k|] eqn:Hk; [|done]. exfalso.
  apply mapM_Some_1 in Hk.
  assert (fold_left (settleAt outcomes) order (replicate (length outcomes) None) !! i
          = Some None) as Hlook.
  { rewrite settle_lookup by (by rewrite length_replicate).
    rewrite decide_False by done. by apply lookup_replicate_2. }
  eapply Forall2_lookup_l in Hk as (y & _ & Hy); [|exact Hlook]. done.
Qed.

Lemma renderAll_aligned (W : World) (links : list string) :
  renderAll W links = Some (map (generatePDFForPage W) links).
Proof.
  unfold renderAll. apply allSettled_in_task_order.
  rewrite length_map. apply completionOrder_perm.
Qed.

Lemma pdfResultsOf_captured (W : World) (links : list string) :
  pdfResultsOf (map (generatePDFForPage W) links) = capturedResults W links.
Proof.
  unfold pdfResultsOf, capturedResults, generatePDFForPage, captured.
  induction links as [|l links IH]; [done|].
  simpl. destruct (render W l); simpl; first [exact IH | f_equal; exact IH].
Qed.

Lemma capturedResults_nil (W : World) (links : list string) :
  capturedResults W links = [] <-> allFail W links = true.
Proof.
  unfold capturedResults, allFail.
  induction links as [|l links IH]; [done|].
  simpl. destruct (captured W l); simpl; [split; done | apply IH].
Qed.

Lemma capturedResults_all (W : World) (links : list string) :
  allCaptured W links = true ->
  map url (capturedResults W links) = links.
Proof.
  unfold capturedResults, allCaptured.
  induction links as [|l links IH]; [done|].
  simpl. destruct (captured W l); simpl; [|done]. intros H. f_equal. exact (IH H).
Qed.

Lemma capturedResults_app (W : World) (l1 l2 : list string) :
  capturedResults W (l1 ++ l2) = capturedResults W l1 ++ capturedResults W l2.
Proof.
  unfold capturedResults. induction l1 as [|l l1 IH]; [done|].
  simpl. destruct (captured W l); simpl; [f_equal|]; exact IH.
Qed.

Lemma addPages_app {P : Type} (pdfDoc copiedPages : list P) :
  addPages pdfDoc copiedPages = pdfDoc ++ copiedPages.
Proof.
  unfold addPages. revert pdfDoc.
  induction copiedPages as [|page pages IH]; intros pdfDoc; simpl.
  - by rewrite app_nil_r.
  - by rewrite IH, <- app_assoc.
Qed.

(** Merging appends, for each captured link in order, the pages of its
    document. *)
Lemma mergeInto_captured (W : World) (links : list string) (pdfDoc : list (PDFPage W)) :
  wellFormed W links = true ->
  mergeInto W (capturedResults W links) pdfDoc =
    inr (pdfDoc ++ concat (map (pagesOf W) links)).
Proof.
  unfold wellFormed, capturedResults, pagesOf. revert pdfDoc.
  induction links as [|l links IH]; intros pdfDoc; simpl.
  - by rewrite app_nil_r.
  - destruct (captured W l) as [b|]; simpl.
    + destruct (PDFDocument_load W b) as [e|pages]; [done|].
      intros H. rewrite (IH _ H), addPages_app. by rewrite <- app_assoc.
    + intros H. by rewrite (IH _ H).
Qed.

(** When the merge succeeds, every captured PDF was parsed. *)
Lemma mergeInto_wellFormed (W : World) (links : list string) (pdfDoc out : list (PDFPage W)) :
  mergeInto W (capturedResults W links) pdfDoc = inr out ->
  wellFormed W links = true.
Proof.
  unfold wellFormed, capturedResults. revert pdfDoc.
  induction links as [|l links IH]; intros pdfDoc; [done|].
  simpl. destruct (captured W l) as [b|]; simpl.
  - destruct (PDFDocument_load W b) as [e|pages]; [done|]. apply IH.
  - apply IH.
Qed.

Lemma mergeInto_error (W : World) (rs : list PdfResult) (pdfDoc : list (PDFPage W)) (e : error) :
  mergeInto W rs pdfDoc = inl e -> exists message, e = External message.
Proof.
  revert pdfDoc. induction rs as [|r rs IH]; intros pdfDoc; [done|].
  simpl. destruct (PDFDocument_load W (buffer r)) as [m|pages].
  - intros [= <-]. by exists m.
  - apply IH.
Qed.

Lemma length_concat_pages (W : World) (links : list string) :
  length (concat (map (pagesOf W) links)) =
  sum_list_with (fun l => length (pagesOf W l)) links.
Proof.
  induction links as [|l links IH]; [done|].
  simpl. by rewrite length_app, IH.
Qed.

Lemma renderAndAssemble_unfold (W : World) (links : list string) (separate : bool) :
  renderAndAssemble W links separate =
    match capturedResults W links with
    | [] => Throws NoPDFsGenerated
    | _ :: _ =>
        if separate then Returns (Separate (capturedResults W links))
        else match mergeInto W (capturedResults W links) [] with
             | inl e => Throws e
             | inr pdfDoc => Returns (Combined (PDFDocument_save W pdfDoc))
             end
    end.
Proof.
  unfold renderAndAssemble, assemble.
  rewrite renderAll_aligned, pdfResultsOf_captured.
  destruct (capturedResults W links); simpl; [done|]. by destruct separate.
Qed.

Lemma capturedResults_skip (W : World) (before after : list string) (failed : string) :
  captured W failed = None ->
  capturedResults W (before ++ failed :: after) = capturedResults W (before ++ after).
Proof.
  intros Hfail. rewrite !capturedResults_app. f_equal.
  unfold capturedResults at 1. simpl. by rewrite Hfail.
Qed.

Lemma renderAndAssemble_some (W : World) (links : list string) (separate : bool) :
  capturedResults W links <> [] ->
  (separate = false -> wellFormed W links = true) ->
  renderAndAssemble W links separate =
    Returns (if separate
             then Separate (capturedResults W links)
             else Combined (PDFDocument_save W (concat (map (pagesOf W) links)))).
Proof.
  intros Hne Hwf. rewrite renderAndAssemble_unfold.
  destruct (capturedResults W links) as [|r rs] eqn:Hrs; [done|].
  destruct separate; [done|].
  by rewrite <- Hrs, (mergeInto_captured W links [] (Hwf eq_refl)).
Qed.

(** C3: the pipeline throws "No PDFs were generated successfully" exactly
    when every render fails, and then returns no output; and when the render
    of one link fails while the others succeed, it returns the output made
    of the others, in the order of the links: their per-page results in
    separate mode, the concatenation of their pages in combined mode (where
    the PDFs captured have to parse). *)
Theorem partial_failure (W : World) (separate : bool) :
  (forall links,
     (renderAndAssemble W links separate = Throws NoPDFsGenerated <->
      allFail W links = true) /\
     (allFail W links = true ->
      forall out, renderAndAssemble W links separate <> Returns out)) /\
  (forall before failed after,
     captured W failed = None ->
     allCaptured W (before ++ after) = true ->
     (separate = false -> wellFormed W (before ++ after) = true) ->
     before ++ after <> [] ->
     renderAndAssemble W (before ++ failed :: after) separate =
       Returns (if separate
                then Separate (capturedResults W (before ++ after))
                else Combined (PDFDocument_save W
                                 (concat (map (pagesOf W) (before ++ after))))) /\
     map url (capturedResults W (before ++ after)) = before ++ after).
Proof.
  split.
  - intros links.
    assert (renderAndAssemble W links separate = Throws NoPDFsGenerated <->
            allFail W links = true) as Hiff.
    { rewrite <- capturedResults_nil, renderAndAssemble_unfold.
      destruct (capturedResults W links) as [|r rs]; [done|].
      split; [|done]. destruct separate; [done|].
      destruct (mergeInto W (r :: rs) []) as [e|pdfDoc] eqn:Hm; [|done].
      apply mergeInto_error in Hm as [m ->]. done. }
    split; [done|].
    intros Hall out. apply Hiff in Hall. congruence.
  - intros before failed after Hfail Hall Hwf Hne.
    pose proof (capturedResults_all W _ Hall) as Hurls.
    split; [|done].
    rewrite renderAndAssemble_unfold, (capturedResults_skip W _ _ _ Hfail).
    rewrite <- (renderAndAssemble_unfold W (before ++ after) separate).
    apply renderAndAssemble_some; [|done].
    intros Hnil. rewrite Hnil in Hurls. by apply Hne.
Qed.

Lemma partial_failure_witness :
  captured partialSite "https://site.test/p2" = None /\
  allCaptured partialSite (["https://site.test/p1"] ++ ["https://site.test/p3"]) = true /\
  wellFormed partialSite (["https://site.test/p1"] ++ ["https://site.test/p3"]) = true /\
  ["https://site.test/p1"] ++ ["https://site.test/p3"] <> [] /\
  renderAndAssemble partialSite
    (["https://site.test/p1"] ++ "https://site.test/p2" :: ["https://site.test/p3"]) false =
    Returns (Combined "123") /\
  map url (capturedResults partialSite (["https://site.test/p1"] ++ ["https://site.test/p3"]))
    = ["https://site.test/p1"] ++ ["https://site.test/p3"].
Proof.
  split; [reflexivity|]. split; [reflexivity|]. split; [reflexivity|]. split; [discriminate|].
  apply (proj2 (partial_failure partialSite false)
               ["https://site.test/p1"] "https://site.test/p2" ["https://site.test/p3"]);
    [reflexivity | reflexivity | reflexivity | discriminate].
Defined.

Lemma lookup_map {A B : Type} (f : A -> B) (l : list A) (i : nat) :
  map f l !! i = f <$> l !! i.
Proof.
  revert i. induction l as [|x l IH]; intros [|i]; try done. apply IH.
Qed.

(** C4: whatever the order in which the render tasks settle, the i-th render
    result is the outcome of the i-th link; and in combined mode, when some
    render succeeds and the captured PDFs parse, the merged document is the
    concatenation, in the order of the links, of the pages of the documents
    rendered, so that its page count is the sum of theirs.  The merged
    document can be no other. *)
Theorem render_order_and_page_count (W : World) (links : list string) :
  (forall order, order ≡ₚ seq 0 (length links) ->
     exists results,
       Promise_allSettled order (map (generatePDFForPage W) links) = Some results /\
       forall i, results !! i = generatePDFForPage W <$> links !! i) /\
  (exists results,
     renderAll W links = Some results /\
     forall i, results !! i = generatePDFForPage W <$> links !! i) /\
  (wellFormed W links = true -> allFail W links = false ->
     renderAndAssemble W links false =
       Returns (Combined (PDFDocument_save W (concat (map (pagesOf W) links))))) /\
  (forall pdf, renderAndAssemble W links false = Returns (Combined pdf) ->
     pdf = PDFDocument_save W (concat (map (pagesOf W) links))) /\
  length (concat (map (pagesOf W) links)) =
    sum_list_with (fun l => length (pagesOf W l)) links.
Proof.
  split_and!.
  - intros order Hperm. exists (map (generatePDFForPage W) links). split.
    + apply allSettled_in_task_order. by rewrite length_map.
    + intros i. apply lookup_map.
  - exists (map (generatePDFForPage W) links). split; [apply renderAll_aligned|].
    intros i. apply lookup_map.
  - intros Hwf Hsome.
    apply (renderAndAssemble_some W links false); [|done].
    intros Hnil. apply capturedResults_nil in Hnil. congruence.
  - intros pdf. rewrite renderAndAssemble_unfold.
    destruct (capturedResults W links) as [|r rs] eqn:Hrs; [done|].
    destruct (mergeInto W (r :: rs) []) as [e|pdfDoc] eqn:Hm; [done|].
    intros [= <-]. rewrite <- Hrs in Hm.
    pose proof (mergeInto_wellFormed W links [] pdfDoc Hm) as Hwf.
    rewrite (mergeInto_captured W links [] Hwf) in Hm. by injection Hm as <-.
  - apply length_concat_pages.
Qed.

Lemma render_order_and_page_count_witness :
  wellFormed partialSite
    ["https://site.test/p1"; "https://site.test/p2"; "https://site.test/p3"] = true /\
  allFail partialSite
    ["https://site.test/p1"; "https://site.test/p2"; "https://site.test/p3"] = false /\
  renderAndAssemble partialSite
    ["https://site.test/p1"; "https://site.test/p2"; "https://site.test/p3"] false =
    Returns (Combined "123") /\
  sum_list_with (fun l => length (pagesOf partialSite l))
    ["https://site.test/p1"; "https://site.test/p2"; "https://site.test/p3"] = 3.
Proof.
  split; [reflexivity|]. split; [reflexivity|]. split; [|reflexivity].
  apply (proj1 (proj2 (proj2 (render_order_and_page_count partialSite
           ["https://site.test/p1"; "https://site.test/p2"; "https://site.test/p3"]))));
    reflexivity.
Defined.

(** ** The default pattern and the errors of [main] *)

(** The earlier filter keeps exactly the links that start with the seed and
    carry no marker. *)
Lemma Legacy_evalLink_prefix (mainUrl l : string) :
  Legacy.evalLink mainUrl (Some l) = Some l <->
  Js.startsWith l mainUrl = true /\ Js.includes l "#" = false /\
  Js.includes l "mailto:" = false /\ Js.includes l "tel:" = false.
Proof.
  unfold Legacy.evalLink.
  destruct (Js.startsWith l mainUrl), (Js.includes l "#"),
    (Js.includes l "mailto:"), (Js.includes l "tel:"); simpl; split; try done;
    intros (? & ? & ? & ?); done.
Qed.

(** C9 does not hold of the program: without a url-pattern the filter is the
    regular expression [^] followed by the seed text, in which the
    characters of the seed keep their meaning in regular expressions.  For
    the seed [https://a.com/search?q=1] the question mark makes the [h]
    before it optional: the link [https://a.com/search?q=1&page=2] starts
    with the seed, the earlier filter keeps it, and this one drops it, so
    that only the seed page is written.  For the seed [https://a.com] the
    dot matches any character: the link [https://a-com/x] does not start
    with the seed, the earlier filter drops it, and this one keeps it, so
    that the page is crawled and written. *)
Theorem default_pattern_is_not_a_prefix_test :
  (defaultedPattern querySite "https://a.com/search?q=1" None =
     inr (PatRegExp (mkRegExp "^https://a.com/search?q=1")) /\
   Js.startsWith "https://a.com/search?q=1&page=2" "https://a.com/search?q=1" = true /\
   Legacy.evalLink "https://a.com/search?q=1" (Some "https://a.com/search?q=1&page=2") =
     Some "https://a.com/search?q=1&page=2" /\
   evalLink querySite "^https://a.com/search?q=1" (Some "https://a.com/search?q=1&page=2") =
     None /\
   main querySite 10 "https://a.com/search?q=1" None outDirSeparate =
     (Returns tt, [BrowserLaunched; FileWritten "out/a-com-search-q-1.pdf" "1"; BrowserClosed])) /\
  (defaultedPattern dotSite "https://a.com" None = inr (PatRegExp (mkRegExp "^https://a.com")) /\
   Js.startsWith "https://a-com/x" "https://a.com" = false /\
   Legacy.evalLink "https://a.com" (Some "https://a-com/x") = None /\
   evalLink dotSite "^https://a.com" (Some "https://a-com/x") = Some "https://a-com/x" /\
   main dotSite 10 "https://a.com" None outDirSeparate =
     (Returns tt,
      [BrowserLaunched; FileWritten "out/a-com.pdf" "1"; FileWritten "out/a-com-x.pdf" "2";
       BrowserClosed])).
Proof. split_and!; reflexivity. Qed.

(** Once the pattern of line 241 exists, [main] does not throw: what the
    [try] block throws is reported, and the browser that was launched is
    closed last. *)
Lemma main_catches (W : World) (fuel : nat) (mainURL : string)
    (urlPattern : option UrlPattern) (options : Options) (pattern : UrlPattern) :
  mainURL <> EmptyString ->
  defaultedPattern W mainURL urlPattern = inr pattern ->
  (forall e, fst (main W fuel mainURL urlPattern options) <> Throws e) /\
  (fst (main W fuel mainURL urlPattern options) = Returns tt ->
   launch W = None ->
   last (snd (main W fuel mainURL urlPattern options)) = Some BrowserClosed) /\
  (forall e, snd (mainTry W fuel mainURL pattern options) = Throws e ->
   ErrorReported e ∈ snd (main W fuel mainURL urlPattern options)).
Proof.
  intros Hne Hpat. unfold main.
  destruct (String.eqb_spec mainURL "") as [->|_]; [done|].
  rewrite Hpat.
  assert (launch W = None -> fst (fst (mainTry W fuel mainURL pattern options)) = true) as Hctx.
  { unfold mainTry. intros ->. destruct (asRegExp W pattern); [done|].
    destruct (generatePDF _ _ _ _ _ _); try done. by destruct (writeOutput _ _ _ _). }
  destruct (mainTry W fuel mainURL pattern options) as [[ctx evs] [[]|e|]]; simpl in *.
  - split_and!; [done | | done].
    intros _ Hl. rewrite (Hctx Hl). simpl. by rewrite last_snoc.
  - split_and!; [done | |].
    + intros _ Hl. rewrite (Hctx Hl). simpl.
      change (evs ++ [ErrorReported e; BrowserClosed])
        with (evs ++ [ErrorReported e] ++ [BrowserClosed]).
      by rewrite (app_assoc evs [ErrorReported e] [BrowserClosed]), last_snoc.
    + intros e' [= <-]. apply elem_of_app. right. by left.
  - split_and!; done.
Qed.

(** C10 does not hold of the program: the default pattern is built at line
    241, before the [try], from the seed text as it is.  For a seed with an
    opening parenthesis [new RegExp] throws there and [main] rejects, nothing
    having been reported.  (A pattern given as a string is compiled at line
    252, inside the [try], and its syntax error is caught and reported.) *)
Theorem main_rejects_on_seed_with_open_group :
  RegExp_compile dotSite "^https://a.com/a(b" = None /\
  main dotSite 10 "https://a.com/a(b" None outDir =
    (Throws (RegExpSyntaxError "^https://a.com/a(b"), []) /\
  main dotSite 10 "https://a.com/a(b" (Some (PatString "a(b")) outDir =
    (Returns tt, [BrowserLaunched; ErrorReported (RegExpSyntaxError "a(b"); BrowserClosed]).
Proof. split_and!; reflexivity. Qed.

(** * Further properties of the program *)

(** ** [normalizeURL]: what it removes and what it leaves *)

Lemma string_length_slice_0_neg1 (s : string) :
  String.length (Js.slice_0_neg1 s) = pred (String.length s).
Proof.
  induction s as [|c s IH]; [done|].
  cbn [Js.slice_0_neg1]. destruct s as [|d s]; [done|].
  cbn [String.length] in *. by rewrite IH.
Qed.

Lemma endsWith_nonempty (s t : string) :
  Js.endsWith s t = true -> t <> EmptyString -> s <> EmptyString.
Proof. intros H Ht ->. simpl in H. destruct t; [done | discriminate]. Qed.

Lemma split_0_at_hash (a f : string) :
  Js.includes a "#" = false -> Js.split_0 (a +:+ "#" +:+ f) "#" = a.
Proof.
  induction a as [|c a IH]; [done|].
  rewrite append_cons. cbn [Js.includes Js.split_0]. rewrite !startsWith_char.
  destruct (Ascii.eqb c "#"); [done|]. simpl. intros H. by rewrite (IH H).
Qed.

Lemma endsWith_snoc (a : string) (c : ascii) :
  Js.endsWith (a +:+ String c EmptyString) (String c EmptyString) = true.
Proof.
  induction a as [|d a IH].
  - change (Js.endsWith (String c EmptyString) (String c EmptyString) = true).
    cbn [Js.endsWith]. by rewrite String.eqb_refl.
  - rewrite append_cons. cbn [Js.endsWith]. rewrite IH. apply orb_true_r.
Qed.

Lemma slice_0_neg1_snoc (a : string) (c : ascii) :
  Js.slice_0_neg1 (a +:+ String c EmptyString) = a.
Proof.
  induction a as [|d a IH]; [done|].
  rewrite append_cons. cbn [Js.slice_0_neg1].
  destruct (a +:+ String c EmptyString) eqn:E.
  - destruct a; discriminate.
  - by rewrite IH.
Qed.

Lemma includes_hash_snoc (a : string) (c : ascii) :
  Ascii.eqb c "#" = false ->
  Js.includes a "#" = false -> Js.includes (a +:+ String c EmptyString) "#" = false.
Proof.
  intros Hc. induction a as [|d a IH].
  - intros _. change (Js.includes (String c EmptyString) "#" = false).
    cbn [Js.includes]. by rewrite startsWith_char, Hc.
  - rewrite append_cons. cbn [Js.includes]. rewrite !startsWith_char.
    destruct (Ascii.eqb d "#"); [done|]. simpl. exact IH.
Qed.

(** [normalizeURL] leaves a URL unchanged exactly when the URL has no [#]
    and does not end in a slash. *)
Theorem normalizeURL_fixed_point (u : string) :
  normalizeURL u = u <->
  Js.includes u "#" = false /\ Js.endsWith u "/" = false.
Proof.
  split.
  - intros Hfix.
    assert (Js.includes u "#" = false) as Hno.
    { rewrite <- Hfix. apply normalizeURL_no_hash. }
    split; [done|].
    unfold normalizeURL in Hfix. rewrite (split_0_hash_fixed _ Hno) in Hfix.
    destruct (Js.endsWith u "/") eqn:Hend; [|done].
    pose proof (string_length_slice_0_neg1 u) as Hlen. rewrite Hfix in Hlen.
    destruct u as [|c u]; [done|]. simpl in Hlen. lia.
  - intros [Hno Hend]. unfold normalizeURL.
    by rewrite (split_0_hash_fixed _ Hno), Hend.
Qed.

(** Everything from the first [#] on is dropped: a URL and the same URL with
    a fragment normalize to the same string. *)
Theorem normalizeURL_drops_fragment (a f : string) :
  Js.includes a "#" = false ->
  normalizeURL (a +:+ "#" +:+ f) = normalizeURL a.
Proof.
  intros Hno. unfold normalizeURL.
  by rewrite (split_0_at_hash _ _ Hno), (split_0_hash_fixed _ Hno).
Qed.

Lemma normalizeURL_drops_fragment_witness :
  Js.includes "https://a.com/p" "#" = false /\
  normalizeURL ("https://a.com/p" +:+ "#" +:+ "sec-2") = normalizeURL "https://a.com/p".
Proof.
  split; [reflexivity|].
  apply (normalizeURL_drops_fragment "https://a.com/p" "sec-2"). reflexivity.
Defined.

(** One trailing slash is dropped: a URL without [#] that does not end in a
    slash is the normalized form of itself and of itself followed by a
    slash. *)
Theorem normalizeURL_drops_slash (a : string) :
  Js.includes a "#" = false -> Js.endsWith a "/" = false ->
  normalizeURL (a +:+ "/") = a /\ normalizeURL a = a.
Proof.
  intros Hno Hend. unfold normalizeURL.
  split; [|by rewrite (split_0_hash_fixed _ Hno), Hend].
  rewrite (split_0_hash_fixed _ (includes_hash_snoc a "/" eq_refl Hno)).
  by rewrite endsWith_snoc, slice_0_neg1_snoc.
Qed.

Lemma normalizeURL_drops_slash_witness :
  Js.includes "https://a.com/p" "#" = false /\
  Js.endsWith "https://a.com/p" "/" = false /\
  normalizeURL ("https://a.com/p" +:+ "/") = "https://a.com/p" /\
  normalizeURL "https://a.com/p" = "https://a.com/p".
Proof.
  split; [reflexivity|]. split; [reflexivity|].
  apply (normalizeURL_drops_slash "https://a.com/p"); reflexivity.
Defined.

(** ** [generateSlug]: the shape of a slug *)

Ltac each_ascii c := destruct c as [[] [] [] [] [] [] [] []]; vm_compute; try done.

Lemma allChars_mapChars (p q : ascii -> bool) (f : ascii -> ascii) (s : string) :
  (forall c, p c = true -> q (f c) = true) ->
  allChars p s = true -> allChars q (Slug.mapChars f s) = true.
Proof.
  intros Hf. induction s as [|c s IH]; [done|]. simpl.
  intros [Hc Hs]%andb_true_iff. by rewrite (Hf _ Hc), (IH Hs).
Qed.

Lemma allChars_squeeze (p q cls : ascii -> bool) (inRun : bool) (s : string) :
  (forall c, p c = true -> cls c = false -> q c = true) -> q "-"%char = true ->
  allChars p s = true -> allChars q (Slug.squeeze cls inRun s) = true.
Proof.
  intros Hq Hdash. revert inRun. induction s as [|c s IH]; intros inRun; [done|]. simpl.
  intros [Hc Hs]%andb_true_iff. destruct (cls c) eqn:Hcls.
  - destruct inRun; [by apply IH|]. simpl. by rewrite Hdash, (IH _ Hs).
  - simpl. by rewrite (Hq _ Hc Hcls), (IH _ Hs).
Qed.

Lemma allChars_slice_0_neg1 (p : ascii -> bool) (s : string) :
  allChars p s = true -> allChars p (Js.slice_0_neg1 s) = true.
Proof.
  induction s as [|c s IH]; [done|]. cbn [Js.slice_0_neg1].
  destruct s as [|d s]; [done|].
  cbn [allChars] in *. intros [Hc Hs]%andb_true_iff. by rewrite Hc, (IH Hs).
Qed.

Lemma allChars_trimHyphens (p : ascii -> bool) (s : string) :
  allChars p s = true -> allChars p (Slug.trimHyphens s) = true.
Proof.
  intros Hs. unfold Slug.trimHyphens.
  set (s1 := match s with EmptyString => s | String c s' => _ end).
  assert (allChars p s1 = true) as H1.
  { subst s1. destruct s as [|c s']; [done|].
    destruct (Ascii.eqb c "-"); [|done].
    simpl in Hs. by apply andb_true_iff in Hs as [_ ?]. }
  destruct (Js.endsWith s1 "-"); [by apply allChars_slice_0_neg1 | done].
Qed.

Lemma allChars_dashOthers (s : string) :
  allChars (fun c => Slug.isWord c || isHyphen c || Slug.isSpace c)
           (Slug.mapChars Slug.dashOthers s) = true.
Proof.
  induction s as [|c s IH]; [done|]. simpl. rewrite IH, andb_true_r.
  clear. each_ascii c.
Qed.

Lemma slug_chars (u : string) : allChars isSlugChar (generateSlug u) = true.
Proof.
  unfold generateSlug.
  apply (allChars_mapChars (fun c => Slug.isWord c || isHyphen c)); [intros c; each_ascii c|].
  apply allChars_trimHyphens.
  apply (allChars_squeeze (fun c => Slug.isWord c || isHyphen c)); [by intros c -> | done |].
  apply (allChars_mapChars (fun c => Slug.isWord c || isHyphen c)); [intros c; each_ascii c|].
  apply (allChars_squeeze (fun c => Slug.isWord c || isHyphen c || Slug.isSpace c));
    [| done | apply allChars_dashOthers].
  intros c H Hsp. rewrite Hsp in H. by rewrite orb_false_r in H.
Qed.

(** A slug is made of lower-case letters, digits, underscores and hyphens
    only, whatever the URL. *)
Theorem generateSlug_safe_characters (u : string) :
  allChars isSlugChar (generateSlug u) = true.
Proof. apply slug_chars. Qed.

Lemma startsWith_two (a c : ascii) (s : string) :
  Js.startsWith (String a s) (String c (String c EmptyString)) =
  Ascii.eqb a c && Js.startsWith s (String c EmptyString).
Proof. simpl. by destruct (Ascii.eqb a c). Qed.

Lemma endsWith_char (a c : ascii) (s : string) :
  Js.endsWith (String a s) (String c EmptyString) =
  match s with
  | EmptyString => Ascii.eqb a c
  | String _ _ => Js.endsWith s (String c EmptyString)
  end.
Proof.
  cbn [Js.endsWith]. simpl String.eqb.
  destruct (Ascii.eqb a c), s; simpl; by rewrite ?orb_false_r.
Qed.

Lemma startsWith_slice_0_neg1 (s : string) (c : ascii) :
  Js.startsWith s (String c EmptyString) = false ->
  Js.startsWith (Js.slice_0_neg1 s) (String c EmptyString) = false.
Proof.
  destruct s as [|a s]; [done|]. cbn [Js.slice_0_neg1].
  destruct s as [|b s]; [done|]. by rewrite !startsWith_char.
Qed.

Lemma includes_cons (a : ascii) (s t : string) :
  Js.includes (String a s) t = Js.startsWith (String a s) t || Js.includes s t.
Proof. reflexivity. Qed.

(** A string that ends in [c] twice over contains [cc]. *)
Lemma endsWith_twice_includes (s : string) (c : ascii) :
  Js.endsWith s (String c EmptyString) = true ->
  Js.endsWith (Js.slice_0_neg1 s) (String c EmptyString) = true ->
  Js.includes s (String c (String c EmptyString)) = true.
Proof.
  induction s as [|a s IH]; [done|].
  destruct s as [|b s]; [done|].
  rewrite endsWith_char. cbn [Js.slice_0_neg1].
  destruct s as [|d s].
  - rewrite !endsWith_char. intros Hb Ha.
    by rewrite includes_cons, startsWith_two, startsWith_char, Ha, Hb.
  - rewrite (endsWith_char a). intros H1 H2.
    rewrite includes_cons, (IH H1 H2). apply orb_true_r.
Qed.

Lemma squeeze_hyphen_start (s : string) :
  Js.startsWith (Slug.squeeze (fun c => Ascii.eqb c "-") true s) "-" = false.
Proof.
  induction s as [|c s IH]; [done|]. simpl Slug.squeeze.
  destruct (Ascii.eqb c "-") eqn:E; [done|]. by rewrite startsWith_char.
Qed.

Lemma squeeze_hyphen_double (inRun : bool) (s : string) :
  Js.includes (Slug.squeeze (fun c => Ascii.eqb c "-") inRun s) "--" = false.
Proof.
  revert inRun. induction s as [|c s IH]; intros inRun; [by destruct inRun|].
  simpl Slug.squeeze. destruct (Ascii.eqb c "-") eqn:E.
  - destruct inRun; [apply IH|].
    by rewrite includes_cons, startsWith_two, squeeze_hyphen_start, IH.
  - by rewrite includes_cons, startsWith_two, E, IH.
Qed.

Lemma includes_tail (c : ascii) (s t : string) :
  Js.includes (String c s) t = false -> Js.includes s t = false.
Proof. rewrite includes_cons. by intros [_ ?]%orb_false_iff. Qed.

Lemma trimHyphens_shape (s : string) :
  Js.includes s "--" = false ->
  Js.includes (Slug.trimHyphens s) "--" = false /\
  Js.startsWith (Slug.trimHyphens s) "-" = false /\
  Js.endsWith (Slug.trimHyphens s) "-" = false.
Proof.
  intros Hs. unfold Slug.trimHyphens.
  set (s1 := match s with EmptyString => s | String c s' => _ end).
  assert (Js.includes s1 "--" = false /\ Js.startsWith s1 "-" = false) as [H1 H2].
  { subst s1. destruct s as [|c s']; [done|].
    destruct (Ascii.eqb c "-") eqn:E.
    - split; [by eapply includes_tail|].
      rewrite includes_cons in Hs. apply orb_false_iff in Hs as [Hs _].
      by rewrite startsWith_two, E in Hs.
    - split; [done|]. by rewrite startsWith_char. }
  destruct (Js.endsWith s1 "-") eqn:Hend; [|done].
  split_and!.
  - by apply includes_slice_0_neg1.
  - by apply startsWith_slice_0_neg1.
  - destruct (Js.endsWith (Js.slice_0_neg1 s1) "-") eqn:Hend2; [|done].
    pose proof (endsWith_twice_includes s1 "-" Hend Hend2). congruence.
Qed.

Lemma mapChars_hyphens (f : ascii -> ascii) (s : string) :
  (forall c, Ascii.eqb (f c) "-" = Ascii.eqb c "-") ->
  Js.includes (Slug.mapChars f s) "--" = Js.includes s "--" /\
  Js.startsWith (Slug.mapChars f s) "-" = Js.startsWith s "-" /\
  Js.endsWith (Slug.mapChars f s) "-" = Js.endsWith s "-".
Proof.
  intros Hf. induction s as [|c s (IH1 & IH2 & IH3)]; [done|].
  cbn [Slug.mapChars]. split_and!.
  - by rewrite !includes_cons, !startsWith_two, Hf, IH1, IH2.
  - by rewrite !startsWith_char, Hf.
  - rewrite !endsWith_char, Hf. destruct s; [done|]. exact IH3.
Qed.

Lemma slug_hyphens (u : string) :
  Js.includes (generateSlug u) "--" = false /\
  Js.startsWith (generateSlug u) "-" = false /\
  Js.endsWith (generateSlug u) "-" = false.
Proof.
  unfold generateSlug.
  destruct (mapChars_hyphens Slug.toLower
    (Slug.trimHyphens (Slug.squeeze (fun c => Ascii.eqb c "-") false
      (Slug.mapChars Slug.dashDot (Slug.squeeze Slug.isSpace false
        (Slug.mapChars Slug.dashOthers (Slug.stripScheme u)))))))
    as (-> & -> & ->); [intros c; each_ascii c|].
  apply trimHyphens_shape, squeeze_hyphen_double.
Qed.

(** A slug has no two hyphens in a row and neither starts nor ends with a
    hyphen. *)
Theorem generateSlug_hyphens (u : string) :
  Js.includes (generateSlug u) "--" = false /\
  Js.startsWith (generateSlug u) "-" = false /\
  Js.endsWith (generateSlug u) "-" = false.
Proof. apply slug_hyphens. Qed.

Lemma startsWith_split (s t : string) :
  Js.startsWith s t = true -> exists r, s = t +:+ r.
Proof.
  revert s. induction t as [|b t IH]; intros s; [by exists s|].
  destruct s as [|a s]; [done|]. simpl.
  destruct (Ascii.eqb_spec a b) as [->|]; [|done].
  intros [r ->]%IH. by exists r.
Qed.

Lemma allChars_app (p : ascii -> bool) (s t : string) :
  allChars p (s +:+ t) = allChars p s && allChars p t.
Proof.
  induction s as [|c s IH]; [done|].
  rewrite append_cons. simpl. by rewrite IH, andb_assoc.
Qed.

Lemma stripScheme_slug (s : string) :
  allChars isSlugChar s = true -> Slug.stripScheme s = s.
Proof.
  induction s as [|c s IH]; [done|]. intros Hs.
  assert (Js.startsWith (String c s) "https://" = false) as Hhttps.
  { destruct (Js.startsWith (String c s) "https://") eqn:E; [|done].
    apply startsWith_split in E as [r E]. rewrite E, allChars_app in Hs. done. }
  assert (Js.startsWith (String c s) "http://" = false) as Hhttp.
  { destruct (Js.startsWith (String c s) "http://") eqn:E; [|done].
    apply startsWith_split in E as [r E]. rewrite E, allChars_app in Hs. done. }
  cbn [Slug.stripScheme]. rewrite Hhttps, Hhttp.
  simpl in Hs. apply andb_true_iff in Hs as [_ Hs]. by rewrite (IH Hs).
Qed.

Lemma mapChars_id (p : ascii -> bool) (f : ascii -> ascii) (s : string) :
  (forall c, p c = true -> f c = c) ->
  allChars p s = true -> Slug.mapChars f s = s.
Proof.
  intros Hf. induction s as [|c s IH]; [done|]. simpl.
  intros [Hc Hs]%andb_true_iff. by rewrite (Hf _ Hc), (IH Hs).
Qed.

Lemma squeeze_none (p cls : ascii -> bool) (inRun : bool) (s : string) :
  (forall c, p c = true -> cls c = false) ->
  allChars p s = true -> Slug.squeeze cls inRun s = s.
Proof.
  intros Hcls. revert inRun. induction s as [|c s IH]; intros inRun; [done|]. simpl.
  intros [Hc Hs]%andb_true_iff. by rewrite (Hcls _ Hc), (IH _ Hs).
Qed.

Lemma squeeze_single_hyphens (s : string) :
  Js.includes s "--" = false ->
  Slug.squeeze (fun c => Ascii.eqb c "-") false s = s /\
  (Js.startsWith s "-" = false -> Slug.squeeze (fun c => Ascii.eqb c "-") true s = s).
Proof.
  induction s as [|c s IH]; [done|].
  rewrite includes_cons, startsWith_two, startsWith_char.
  intros [H1 H2]%orb_false_iff. destruct (IH H2) as [IHf IHt].
  simpl Slug.squeeze. destruct (Ascii.eqb_spec c "-") as [->|Hne].
  - simpl in H1. split; [by rewrite (IHt H1) | done].
  - by rewrite IHf.
Qed.

Lemma trimHyphens_none (s : string) :
  Js.startsWith s "-" = false -> Js.endsWith s "-" = false ->
  Slug.trimHyphens s = s.
Proof.
  intros Hstart Hend. unfold Slug.trimHyphens. destruct s as [|c s]; [done|].
  rewrite startsWith_char in Hstart. by rewrite Hstart, Hend.
Qed.

(** The slug of a slug is the slug itself: [generateSlug] changes nothing in
    a string made of slug characters with single, inner hyphens only. *)
Theorem generateSlug_idempotent (u : string) :
  generateSlug (generateSlug u) = generateSlug u.
Proof.
  pose proof (slug_chars u) as Hchars.
  destruct (slug_hyphens u) as (Hdouble & Hstart & Hend).
  generalize dependent (generateSlug u). intros s Hchars Hdouble Hstart Hend.
  unfold generateSlug.
  rewrite (stripScheme_slug s Hchars).
  rewrite (mapChars_id isSlugChar Slug.dashOthers s) by (done || intros c; each_ascii c).
  rewrite (squeeze_none isSlugChar Slug.isSpace false s) by (done || intros c; each_ascii c).
  rewrite (mapChars_id isSlugChar Slug.dashDot s) by (done || intros c; each_ascii c).
  rewrite (proj1 (squeeze_single_hyphens s Hdouble)).
  rewrite (trimHyphens_none s Hstart Hend).
  apply (mapChars_id isSlugChar); [intros c; each_ascii c | done].
Qed.

(** ** The crawl: order, completeness, and what a completed crawl implies *)

Lemma enqueue_all_queue (ls : list string) (st : CrawlState) :
  exists new, queue (fold_left enqueue ls st) = queue st ++ new.
Proof.
  revert st. induction ls as [|l ls IH]; intros st; [exists []; by rewrite app_nil_r|].
  simpl. destruct (IH (enqueue st l)) as [new ->].
  destruct (enqueue_cases st l) as [->|(_ & _ & ->)]; [by exists new|].
  simpl. exists (normalizeURL l :: new). by rewrite <- app_assoc.
Qed.

Lemma crawlPage_appends (W : World) (pattern : string) (st st' : CrawlState)
    (currentUrl : string) (rest : list string) (err : option error) :
  CrawlInv st -> queue st = currentUrl :: rest ->
  crawlPage W pattern currentUrl (mkCrawl (crawledUrls st) rest (navigations st)) = (st', err) ->
  exists new, crawledUrls st' ++ queue st' = (crawledUrls st ++ queue st) ++ new.
Proof.
  intros Hinv Hq Hp.
  destruct (crawlPage_crawled W pattern st st' currentUrl rest err Hinv Hq Hp) as [Hc _].
  destruct (crawlPage_fresh W pattern st currentUrl rest Hinv Hq) as (Hfresh & _ & _).
  unfold crawlPage, Set_add in Hp. simpl in Hp. rewrite Hfresh in Hp.
  assert (exists new, queue st' = rest ++ new) as [new Hnew].
  { destruct (fetch W currentUrl) as [m|m|m|anchors close]; injection Hp as <- _;
      try (exists []; by rewrite app_nil_r).
    apply (enqueue_all_queue _ (mkCrawl _ rest _)). }
  exists new. rewrite Hc, Hnew, Hq. by rewrite <- !app_assoc.
Qed.

(** Pages are visited in the order in which they were discovered: what is
    visited or queued at some point of a crawl that completes is an initial
    part of the final visited list, in that order. *)
Theorem crawl_first_in_first_out (W : World) (pattern : string) (fuel : nat)
    (st st' : CrawlState) :
  CrawlInv st ->
  crawlLoop W pattern fuel st = Completed st' ->
  (crawledUrls st ++ queue st) `prefix_of` crawledUrls st'.
Proof.
  revert st. induction fuel as [|fuel IH]; intros st Hinv; simpl.
  - destruct (queue st) eqn:Hq; [|done]. intros [= <-]. by rewrite app_nil_r.
  - destruct (queue st) as [|u rest] eqn:Hq; [intros [= <-]; by rewrite app_nil_r|].
    destruct (crawlPage W pattern u _) as [st1 [e|]] eqn:Hp; [done|].
    intros Hloop.
    destruct (crawlPage_appends W pattern st st1 u rest None Hinv Hq Hp) as [new Hnew].
    pose proof (IH st1 (crawlPage_inv _ _ _ _ _ _ _ Hinv Hq Hp) Hloop) as Hpre.
    rewrite Hnew, Hq in Hpre. by eapply prefix_app_l.
Qed.

Lemma crawl_first_in_first_out_witness :
  CrawlInv (crawlInit "https://a.com") /\
  crawlLoop dotSite "^https://a.com" 5 (crawlInit "https://a.com") =
    Completed (mkCrawl ["https://a.com"; "https://a-com/x"] []
                       ["https://a.com"; "https://a-com/x"]) /\
  ([] ++ ["https://a.com"]) `prefix_of` ["https://a.com"; "https://a-com/x"].
Proof.
  split; [apply crawlInit_inv|]. split; [reflexivity|].
  apply (crawl_first_in_first_out dotSite "^https://a.com" 5 (crawlInit "https://a.com")
           (mkCrawl ["https://a.com"; "https://a-com/x"] []
                    ["https://a.com"; "https://a-com/x"]));
    [apply crawlInit_inv | reflexivity].
Defined.

Lemma crawlLoop_completed_loaded (W : World) (pattern : string) (fuel : nat)
    (st st' : CrawlState) :
  navigations st = crawledUrls st ->
  (forall u, u ∈ crawledUrls st -> exists anchors, fetch W u = Loaded anchors None) ->
  crawlLoop W pattern fuel st = Completed st' ->
  navigations st' = crawledUrls st' /\
  (forall u, u ∈ crawledUrls st' -> exists anchors, fetch W u = Loaded anchors None).
Proof.
  revert st. induction fuel as [|fuel IH]; intros st Hnav Hload; simpl.
  - destruct (queue st); [|done]. by intros [= <-].
  - destruct (queue st) as [|u rest]; [by intros [= <-]|].
    unfold crawlPage, Set_add. simpl.
    destruct (Set_has (crawledUrls st) u) eqn:Hhas; [by apply IH|].
    destruct (fetch W u) as [m|m|m|anchors [m|]] eqn:Hfetch; simpl; try done.
    apply IH.
    + by destruct (enqueue_all_crawled (subLinks W pattern anchors)
        (mkCrawl (crawledUrls st ++ [u]) rest (navigations st ++ [u]))) as [-> ->];
        simpl; rewrite Hnav.
    + destruct (enqueue_all_crawled (subLinks W pattern anchors)
        (mkCrawl (crawledUrls st ++ [u]) rest (navigations st ++ [u]))) as [-> _].
      simpl. intros v [Hv| ->%list_elem_of_singleton]%elem_of_app; [by apply Hload|].
      by exists anchors.
Qed.

(** A crawl completes only if every page of the visited set loaded and its
    tab closed without error; and then the pages navigated to are exactly
    the visited set, in the same order. *)
Theorem completed_crawl_loaded_every_page (W : World) (seed : string) (urlPattern : RegExp)
    (fuel : nat) (st : CrawlState) :
  crawl W seed urlPattern fuel = Completed st ->
  navigations st = crawledUrls st /\
  (forall u, u ∈ crawledUrls st -> exists anchors, fetch W u = Loaded anchors None).
Proof.
  apply crawlLoop_completed_loaded; [done|]. by intros u ?%elem_of_nil.
Qed.

Lemma completed_crawl_loaded_every_page_witness :
  crawl dotSite "https://a.com" (mkRegExp "^https://a.com") 5 =
    Completed (mkCrawl ["https://a.com"; "https://a-com/x"] []
                       ["https://a.com"; "https://a-com/x"]) /\
  forall u, u ∈ ["https://a.com"; "https://a-com/x"] ->
            exists anchors, fetch dotSite u = Loaded anchors None.
Proof.
  split; [reflexivity|].
  apply (completed_crawl_loaded_every_page dotSite "https://a.com" (mkRegExp "^https://a.com") 5
           (mkCrawl ["https://a.com"; "https://a-com/x"] []
                    ["https://a.com"; "https://a-com/x"])).
  reflexivity.
Defined.

Lemma enqueue_all_keeps (ls : list string) (st : CrawlState) (v : string) :
  v ∈ crawledUrls st \/ v ∈ queue st ->
  v ∈ crawledUrls (fold_left enqueue ls st) \/ v ∈ queue (fold_left enqueue ls st).
Proof.
  intros [Hv|Hv].
  - left. by destruct (enqueue_all_crawled ls st) as [-> _].
  - right. destruct (enqueue_all_queue ls st) as [new ->]. apply elem_of_app. by left.
Qed.

Lemma enqueue_all_covers (ls : list string) (st : CrawlState) (l : string) :
  l ∈ ls ->
  normalizeURL l ∈ crawledUrls (fold_left enqueue ls st) \/
  normalizeURL l ∈ queue (fold_left enqueue ls st).
Proof.
  revert st. induction ls as [|l' ls IH]; intros st; [by intros ?%elem_of_nil|].
  intros [->|Hl]%elem_of_cons; [|by apply IH].
  simpl. apply enqueue_all_keeps.
  destruct (enqueue_cases st l') as [Heq|(_ & _ & ->)].
  - rewrite Heq. unfold enqueue, Set_has in Heq.
    destruct (Js.arr_includes (crawledUrls st) (normalizeURL l')) eqn:E1;
      [left; by apply arr_includes_true|].
    destruct (Js.arr_includes (queue st) (normalizeURL l')) eqn:E2;
      [right; by apply arr_includes_true|].
    simpl in Heq. exfalso. apply (f_equal (fun s => length (queue s))) in Heq.
    simpl in Heq. rewrite length_app in Heq. simpl in Heq. lia.
  - right. simpl. apply elem_of_app. right. by left.
Qed.

Lemma crawlLoop_closed (W : World) (pattern : string) (fuel : nat) (st st' : CrawlState) :
  (forall u anchors close l,
     u ∈ navigations st -> fetch W u = Loaded anchors close ->
     l ∈ subLinks W pattern anchors ->
     normalizeURL l ∈ crawledUrls st \/ normalizeURL l ∈ queue st) ->
  crawlLoop W pattern fuel st = Completed st' ->
  forall u anchors close l,
    u ∈ navigations st' -> fetch W u = Loaded anchors close ->
    l ∈ subLinks W pattern anchors -> normalizeURL l ∈ crawledUrls st'.
Proof.
  revert st. induction fuel as [|fuel IH]; intros st Hcl; simpl.
  - destruct (queue st) eqn:Hq; [|done]. intros [= <-] u anchors close l Hu Hf Hl.
    destruct (Hcl u anchors close l Hu Hf Hl) as [?|Hin]; [done|].
    by apply elem_of_nil in Hin.
  - destruct (queue st) as [|c rest] eqn:Hq.
    { intros [= <-] u anchors close l Hu Hf Hl.
      destruct (Hcl u anchors close l Hu Hf Hl) as [?|Hin]; [done|].
      by apply elem_of_nil in Hin. }
    unfold crawlPage, Set_add. simpl.
    destruct (Set_has (crawledUrls st) c) eqn:Hhas.
    { apply IH. simpl. intros u anchors close l Hu Hf Hl.
      destruct (Hcl u anchors close l Hu Hf Hl) as [?|Hin]; [by left|].
      apply elem_of_cons in Hin as [->|?]; [left; by apply arr_includes_true | by right]. }
    destruct (fetch W c) as [m|m|m|anchors [m|]] eqn:Hfetch; simpl; try done.
    apply IH. intros u anchors' close l Hu Hf Hl.
    destruct (enqueue_all_crawled (subLinks W pattern anchors)
      (mkCrawl (crawledUrls st ++ [c]) rest (navigations st ++ [c]))) as [_ Hn].
    rewrite Hn in Hu. simpl in Hu.
    apply elem_of_app in Hu as [Hu| ->%list_elem_of_singleton].
    + apply enqueue_all_keeps. simpl.
      destruct (Hcl u anchors' close l Hu Hf Hl) as [?|Hin];
        [left; apply elem_of_app; by left|].
      apply elem_of_cons in Hin as [->|?]; [|by right].
      left. apply elem_of_app. right. by left.
    + rewrite Hfetch in Hf. injection Hf as <- _. by apply enqueue_all_covers.
Qed.

(** A completed crawl has found everything in scope: the normalized form of
    every link that a visited page shows and the filter keeps is in the
    visited set. *)
Theorem completed_crawl_is_closed (W : World) (seed : string) (urlPattern : RegExp)
    (fuel : nat) (st : CrawlState) :
  crawl W seed urlPattern fuel = Completed st ->
  forall u anchors close l,
    u ∈ crawledUrls st -> fetch W u = Loaded anchors close ->
    l ∈ subLinks W (source urlPattern) anchors ->
    normalizeURL l ∈ crawledUrls st.
Proof.
  intros Hcrawl u anchors close l Hu.
  destruct (crawlLoop_completed_loaded W (source urlPattern) fuel (crawlInit seed) st)
    as [Hnav _]; [done | by intros ? ?%elem_of_nil | done |].
  rewrite <- Hnav in Hu. revert u anchors close l Hu.
  apply (crawlLoop_closed W (source urlPattern) fuel (crawlInit seed)); [|done].
  by intros u anchors close l ?%elem_of_nil.
Qed.

Lemma completed_crawl_is_closed_witness :
  crawl dotSite "https://a.com" (mkRegExp "^https://a.com") 5 =
    Completed (mkCrawl ["https://a.com"; "https://a-com/x"] []
                       ["https://a.com"; "https://a-com/x"]) /\
  "https://a.com" ∈ ["https://a.com"; "https://a-com/x"] /\
  fetch dotSite "https://a.com" = Loaded [Some "https://a-com/x"] None /\
  "https://a-com/x" ∈ subLinks dotSite "^https://a.com" [Some "https://a-com/x"] /\
  normalizeURL "https://a-com/x" ∈ ["https://a.com"; "https://a-com/x"].
Proof.
  assert ("https://a.com" ∈ ["https://a.com"; "https://a-com/x"]) as H1 by (by left).
  assert ("https://a-com/x" ∈ subLinks dotSite "^https://a.com" [Some "https://a-com/x"])
    as H2 by (by left).
  split; [reflexivity|]. split; [exact H1|]. split; [reflexivity|]. split; [exact H2|].
  apply (completed_crawl_is_closed dotSite "https://a.com" (mkRegExp "^https://a.com") 5
           (mkCrawl ["https://a.com"; "https://a-com/x"] []
                    ["https://a.com"; "https://a-com/x"])
           eq_refl "https://a.com" [Some "https://a-com/x"] None "https://a-com/x"
           H1 eq_refl H2).
Defined.

(** No page is rendered twice: the list of links handed to the render phase
    holds no string twice. *)
Theorem rendered_links_are_distinct (W : World) (seed : string) (urlPattern : RegExp)
    (fuel : nat) (st : CrawlState) :
  crawl W seed urlPattern fuel = Completed st ->
  NoDup (uniqueSubLinks seed st).
Proof.
  intros Hcrawl.
  pose proof (crawlLoop_trace W (source urlPattern) seed fuel (crawlInit seed)
                (trace_init _ _ _)) as Htr.
  fold (crawl W seed urlPattern fuel) in Htr. rewrite Hcrawl in Htr.
  destruct (crawlTrace_inv _ _ _ _ Htr) as [_ Hc _ _ _]. simpl in Hc.
  unfold uniqueSubLinks.
  destruct (Js.arr_includes (crawledUrls st) seed) eqn:E; [done|].
  simpl. apply NoDup_cons. split; [by apply arr_includes_false | done].
Qed.

Lemma rendered_links_are_distinct_witness :
  crawl slashSite "https://site.test/" (mkRegExp "^https://site.test/") 5 =
    Completed (mkCrawl ["https://site.test/"; "https://site.test"; "https://site.test/a"] []
                       ["https://site.test/"; "https://site.test"; "https://site.test/a"]) /\
  NoDup (uniqueSubLinks "https://site.test/"
           (mkCrawl ["https://site.test/"; "https://site.test"; "https://site.test/a"] []
                    ["https://site.test/"; "https://site.test"; "https://site.test/a"])).
Proof.
  split; [reflexivity|].
  apply (rendered_links_are_distinct slashSite "https://site.test/"
           (mkRegExp "^https://site.test/") 5). reflexivity.
Defined.

(** ** [generatePDF]: how it ends and what it returns *)

Lemma crawlLoop_aborted_external (W : World) (pattern : string) (fuel : nat)
    (st st' : CrawlState) (e : error) :
  crawlLoop W pattern fuel st = Aborted e st' -> exists m, e = External m.
Proof.
  revert st. induction fuel as [|fuel IH]; intros st; simpl.
  - by destruct (queue st).
  - destruct (queue st) as [|u rest]; [done|].
    destruct (crawlPage W pattern u _) as [st1 [e1|]] eqn:Hp; [|apply IH].
    intros [= <- <-]. unfold crawlPage in Hp.
    destruct (Set_has _ _); [done|].
    destruct (fetch W u) as [m|m|m|anchors [m|]]; simplify_eq/=; by eexists.
Qed.

Lemma renderAndAssemble_throws (W : World) (links : list string) (separate : bool) (e : error) :
  renderAndAssemble W links separate = Throws e ->
  e = NoPDFsGenerated \/ (separate = false /\ exists m, e = External m).
Proof.
  rewrite renderAndAssemble_unfold.
  destruct (capturedResults W links) as [|r rs]; [intros [= <-]; by left|].
  destruct separate; [done|].
  destruct (mergeInto W (r :: rs) []) as [e'|pdfDoc] eqn:Hm; [|done].
  intros [= <-]. right. split; [done|]. by eapply mergeInto_error.
Qed.

Lemma generatePDF_ends (W : World) (seed : string) (urlPattern : RegExp)
    (univ : list string) (fuel concurrentLimit : nat) (separate : bool) :
  linkClosed W (source urlPattern) seed univ = true -> length univ < fuel ->
  generatePDF W fuel seed urlPattern concurrentLimit separate <> Unfinished.
Proof.
  intros Hclosed Hfuel. unfold generatePDF.
  destruct (concurrentLimit =? 0); [done|]. unfold crawl.
  destruct (crawlLoop_terminates W (source urlPattern) seed univ fuel (crawlInit seed))
    as [st [[-> _]|(e & p & -> & _)]]; try done.
  - apply crawlInit_inv.
  - intros u [Hu|Hu]; simpl in Hu; [by apply elem_of_nil in Hu|].
    apply list_elem_of_singleton in Hu as ->. by left.
  - simpl. lia.
  - rewrite renderAndAssemble_unfold.
    destruct (capturedResults W _); [done|]. destruct separate; [done|].
    by destruct (mergeInto W _ _).
Qed.

(** On a finite link graph [generatePDF] comes to an end, by returning or by
    throwing, once the crawl loop is given more iterations than the graph has
    pages besides the seed. *)
Theorem generatePDF_finishes (W : World) (seed : string) (urlPattern : RegExp)
    (univ : list string) (fuel concurrentLimit : nat) (separate : bool) :
  linkClosed W (source urlPattern) seed univ = true -> length univ < fuel ->
  (exists out, generatePDF W fuel seed urlPattern concurrentLimit separate = Returns out) \/
  (exists e, generatePDF W fuel seed urlPattern concurrentLimit separate = Throws e).
Proof.
  intros Hclosed Hfuel.
  pose proof (generatePDF_ends W seed urlPattern univ fuel concurrentLimit separate
                Hclosed Hfuel) as Hends.
  destruct (generatePDF W fuel seed urlPattern concurrentLimit separate) as [out|e|];
    [left; by exists out | right; by exists e | done].
Qed.

Lemma generatePDF_finishes_witness :
  linkClosed slashSite "^https://site.test/" "https://site.test/"
    ["https://site.test"; "https://site.test/a"] = true /\
  2 < 3 /\
  ((exists out, generatePDF slashSite 3 "https://site.test/"
                  (mkRegExp "^https://site.test/") 4 false = Returns out) \/
   (exists e, generatePDF slashSite 3 "https://site.test/"
                (mkRegExp "^https://site.test/") 4 false = Throws e)).
Proof.
  split; [reflexivity|]. split; [lia|].
  apply (generatePDF_finishes slashSite "https://site.test/" (mkRegExp "^https://site.test/")
           ["https://site.test"; "https://site.test/a"] 3 4 false); [reflexivity | simpl; lia].
Defined.

(** With a limit that is a positive integer, [generatePDF] throws only
    "No PDFs were generated successfully" or an error that the browser or
    the PDF store raised; it never throws a syntax error of a regular
    expression. *)
Theorem generatePDF_errors (W : World) (fuel : nat) (seed : string) (urlPattern : RegExp)
    (concurrentLimit : nat) (separate : bool) (e : error) :
  0 < concurrentLimit ->
  generatePDF W fuel seed urlPattern concurrentLimit separate = Throws e ->
  e = NoPDFsGenerated \/ (exists m, e = External m).
Proof.
  intros Hlimit. unfold generatePDF.
  destruct (Nat.eqb_spec concurrentLimit 0) as [->|_]; [lia|].
  destruct (crawl W seed urlPattern fuel) as [st|e' st|st] eqn:Hcrawl; [| |done].
  - intros [->|[_ Hm]]%renderAndAssemble_throws; [by left | by right].
  - intros [= <-]. right. by eapply crawlLoop_aborted_external.
Qed.

Lemma generatePDF_errors_witness :
  0 < 4 /\
  generatePDF timeoutSite 10 "https://site.test/index" (mkRegExp "^https://site.test/") 4 false =
    Throws (External "Navigation timeout of 30000 ms exceeded") /\
  (External "Navigation timeout of 30000 ms exceeded" = NoPDFsGenerated \/
   (exists m, External "Navigation timeout of 30000 ms exceeded" = External m)).
Proof.
  split; [lia|]. split; [reflexivity|].
  apply (generatePDF_errors timeoutSite 10 "https://site.test/index"
           (mkRegExp "^https://site.test/") 4 false); [lia | reflexivity].
Defined.

Lemma capturedResults_elem (W : World) (links : list string) (r : PdfResult) :
  r ∈ capturedResults W links ->
  url r ∈ links /\ render W (url r) = Captured (buffer r).
Proof.
  unfold capturedResults. intros (l & Hl & Hr)%list_elem_of_omap.
  unfold captured in Hr. destruct (render W l) eqn:E; simplify_eq/=. done.
Qed.

Lemma capturedResults_NoDup (W : World) (links : list string) :
  NoDup links -> NoDup (map url (capturedResults W links)).
Proof.
  induction links as [|l links IH]; [intros _; apply NoDup_nil_2|].
  intros [Hl Hnd]%NoDup_cons. unfold capturedResults. simpl.
  destruct (captured W l); simpl; [|by apply IH].
  apply NoDup_cons. split; [|by apply IH].
  intros Hin. apply list_elem_of_In, in_map_iff in Hin as (r & <- & Hr).
  apply list_elem_of_In, capturedResults_elem in Hr as [Hr _]. done.
Qed.

(** The mode decides the shape of the result.  In separate mode
    [generatePDF] returns a non-empty list of per-page results with pairwise
    distinct URLs, each holding the PDF that was captured for its URL; in
    combined mode it returns one buffer. *)
Theorem generatePDF_result_shape (W : World) (fuel : nat) (seed : string)
    (urlPattern : RegExp) (concurrentLimit : nat) (separate : bool) (out : Output) :
  generatePDF W fuel seed urlPattern concurrentLimit separate = Returns out ->
  if separate
  then exists pdfs, out = Separate pdfs /\ pdfs <> [] /\ NoDup (map url pdfs) /\
                    forall r, r ∈ pdfs -> render W (url r) = Captured (buffer r)
  else exists pdf, out = Combined pdf.
Proof.
  unfold generatePDF. destruct (concurrentLimit =? 0); [done|].
  destruct (crawl W seed urlPattern fuel) as [st|e' st|st] eqn:Hcrawl; [|done|done].
  rewrite renderAndAssemble_unfold.
  destruct (capturedResults W (uniqueSubLinks seed st)) as [|r rs] eqn:Hrs; [done|].
  destruct separate.
  - intros [= <-]. exists (r :: rs). split_and!; [done | done | |].
    + rewrite <- Hrs. apply capturedResults_NoDup.
      pose proof (crawlLoop_trace W (source urlPattern) seed fuel (crawlInit seed)
                    (trace_init _ _ _)) as Htr.
      fold (crawl W seed urlPattern fuel) in Htr. rewrite Hcrawl in Htr.
      destruct (crawlTrace_inv _ _ _ _ Htr) as [_ Hc _ _ _]. simpl in Hc.
      unfold uniqueSubLinks.
      destruct (Js.arr_includes (crawledUrls st) seed) eqn:E; [done|].
      simpl. apply NoDup_cons. split; [by apply arr_includes_false | done].
    + intros r' Hr'. rewrite <- Hrs in Hr'. by apply capturedResults_elem in Hr' as [_ ?].
  - destruct (mergeInto W (r :: rs) []) as [e|pdfDoc]; [done|].
    intros [= <-]. by eexists.
Qed.

Lemma generatePDF_result_shape_witness :
  generatePDF dotSite 5 "https://a.com" (mkRegExp "^https://a.com") 4 true =
    Returns (Separate [mkPdf "https://a.com" "1"; mkPdf "https://a-com/x" "2"]) /\
  exists pdfs,
    Separate [mkPdf "https://a.com" "1"; mkPdf "https://a-com/x" "2"] = Separate pdfs /\
    pdfs <> [] /\ NoDup (map url pdfs) /\
    forall r, r ∈ pdfs -> render dotSite (url r) = Captured (buffer r).
Proof.
  split; [reflexivity|].
  apply (generatePDF_result_shape dotSite 5 "https://a.com" (mkRegExp "^https://a.com") 4 true).
  reflexivity.
Defined.

Lemma mergeInto_malformed (W : World) (links : list string) (pdfDoc : list (PDFPage W)) :
  wellFormed W links = false ->
  capturedResults W links <> [] /\
  exists m, mergeInto W (capturedResults W links) pdfDoc = inl (External m).
Proof.
  unfold wellFormed, capturedResults. revert pdfDoc.
  induction links as [|l links IH]; intros pdfDoc; [done|]. simpl.
  destruct (captured W l) as [b|]; simpl.
  - split; [done|]. destruct (PDFDocument_load W b) as [m|pages]; [by exists m|].
    simpl in H. by apply IH.
  - intros H. by apply IH.
Qed.

(** A captured PDF that does not parse is fatal in combined mode only:
    combined mode throws the error of the PDF store, while separate mode,
    which parses nothing, returns every captured PDF. *)
Theorem malformed_pdf_is_fatal_when_combined (W : World) (links : list string) :
  wellFormed W links = false ->
  (exists m, renderAndAssemble W links false = Throws (External m)) /\
  renderAndAssemble W links true = Returns (Separate (capturedResults W links)).
Proof.
  intros Hwf. destruct (mergeInto_malformed W links [] Hwf) as [Hne [m Hm]].
  rewrite !renderAndAssemble_unfold.
  destruct (capturedResults W links) as [|r rs] eqn:Hrs; [done|].
  split; [|done]. exists m. by rewrite Hm.
Qed.

Lemma malformed_pdf_is_fatal_when_combined_witness :
  wellFormed malformedSite ["https://site.test/p1"; "https://site.test/p2"] = false /\
  (exists m, renderAndAssemble malformedSite
               ["https://site.test/p1"; "https://site.test/p2"] false = Throws (External m)) /\
  renderAndAssemble malformedSite ["https://site.test/p1"; "https://site.test/p2"] true =
    Returns (Separate (capturedResults malformedSite
                         ["https://site.test/p1"; "https://site.test/p2"])).
Proof.
  split; [reflexivity|].
  apply (malformed_pdf_is_fatal_when_combined malformedSite
           ["https://site.test/p1"; "https://site.test/p2"]). reflexivity.
Defined.

(** ** [main]: errors, cleanup and files *)

Lemma main_catches_witness :
  "https://site.test/index" <> EmptyString /\
  defaultedPattern timeoutSite "https://site.test/index" None =
    inr (PatRegExp (mkRegExp "^https://site.test/index")) /\
  (forall e, fst (main timeoutSite 5 "https://site.test/index" None outDir) <> Throws e) /\
  (fst (main timeoutSite 5 "https://site.test/index" None outDir) = Returns tt ->
   launch timeoutSite = None ->
   last (snd (main timeoutSite 5 "https://site.test/index" None outDir)) = Some BrowserClosed) /\
  (forall e,
     snd (mainTry timeoutSite 5 "https://site.test/index"
            (PatRegExp (mkRegExp "^https://site.test/index")) outDir) = Throws e ->
     ErrorReported e ∈ snd (main timeoutSite 5 "https://site.test/index" None outDir)).
Proof.
  split; [discriminate|]. split; [reflexivity|].
  apply (main_catches timeoutSite 5 "https://site.test/index" None outDir
           (PatRegExp (mkRegExp "^https://site.test/index"))); [discriminate | reflexivity].
Defined.

Lemma main_no_throw (W : World) (fuel : nat) (mainURL : string)
    (urlPattern : option UrlPattern) (options : Options) (pattern : UrlPattern) (e : error) :
  mainURL <> EmptyString ->
  defaultedPattern W mainURL urlPattern = inr pattern ->
  fst (main W fuel mainURL urlPattern options) <> Throws e.
Proof.
  intros Hne Hpat. unfold main.
  destruct (String.eqb_spec mainURL "") as [->|_]; [done|]. rewrite Hpat.
  by destruct (mainTry W fuel mainURL pattern options) as [[ctx evs] [[]|e'|]].
Qed.

(** When a url-pattern is passed, [main] throws for no seed but the empty
    one: the seed is then not made into a regular expression, and a string
    pattern that does not compile is reported like any other error. *)
Theorem main_with_pattern_never_throws (W : World) (fuel : nat) (mainURL : string)
    (urlPattern : option UrlPattern) (options : Options) (e : error) :
  mainURL <> EmptyString -> patternGiven urlPattern = true ->
  fst (main W fuel mainURL urlPattern options) <> Throws e.
Proof.
  intros Hne Hgiven.
  destruct urlPattern as [[[|c s]|r]|]; try done.
  - by apply (main_no_throw W fuel mainURL _ options (PatString (String c s))).
  - by apply (main_no_throw W fuel mainURL _ options (PatRegExp r)).
Qed.

Lemma main_with_pattern_never_throws_witness :
  "https://a.com/a(b" <> EmptyString /\
  patternGiven (Some (PatString "^https://a")) = true /\
  fst (main dotSite 5 "https://a.com/a(b" (Some (PatString "^https://a")) outDir)
    <> Throws (RegExpSyntaxError "^https://a.com/a(b").
Proof.
  split; [discriminate|]. split; [reflexivity|].
  apply (main_with_pattern_never_throws dotSite 5 "https://a.com/a(b"
           (Some (PatString "^https://a")) outDir); [discriminate | reflexivity].
Defined.

(** When the browser cannot be launched, [main] reports that error and
    returns: nothing is crawled or written, and no browser is closed. *)
Theorem main_launch_failure (W : World) (fuel : nat) (mainURL : string)
    (urlPattern : option UrlPattern) (options : Options) (pattern : UrlPattern)
    (message : string) :
  mainURL <> EmptyString ->
  defaultedPattern W mainURL urlPattern = inr pattern ->
  launch W = Some message ->
  main W fuel mainURL urlPattern options = (Returns tt, [ErrorReported (External message)]).
Proof.
  intros Hne Hpat Hlaunch. unfold main, mainTry.
  destruct (String.eqb_spec mainURL "") as [->|_]; [done|].
  by rewrite Hpat, Hlaunch.
Qed.

Lemma main_launch_failure_witness :
  "https://a.com" <> EmptyString /\
  defaultedPattern noBrowserSite "https://a.com" None =
    inr (PatRegExp (mkRegExp "^https://a.com")) /\
  launch noBrowserSite = Some "Could not find Chrome" /\
  main noBrowserSite 5 "https://a.com" None outDir =
    (Returns tt, [ErrorReported (External "Could not find Chrome")]).
Proof.
  split; [discriminate|]. split; [reflexivity|]. split; [reflexivity|].
  apply (main_launch_failure noBrowserSite 5 "https://a.com" None outDir
           (PatRegExp (mkRegExp "^https://a.com")) "Could not find Chrome");
    [discriminate | reflexivity | reflexivity].
Defined.

Lemma writeEach_spec (W : World) (outputDir : string) (pdfs : list PdfResult) :
  fst (writeEach W outputDir pdfs) `prefix_of` map (written W outputDir) pdfs /\
  (snd (writeEach W outputDir pdfs) = None ->
   fst (writeEach W outputDir pdfs) = map (written W outputDir) pdfs) /\
  (forall e, snd (writeEach W outputDir pdfs) = Some e ->
   length (fst (writeEach W outputDir pdfs)) < length pdfs /\ exists m, e = External m).
Proof.
  induction pdfs as [|r pdfs (IH1 & IH2 & IH3)]; [by split_and!|].
  simpl. destruct (fs_writeFile W _ (buffer r)) as [m|] eqn:Hw.
  - simpl. split_and!; [apply prefix_nil | done |].
    intros e [= <-]. split; [lia | by exists m].
  - destruct (writeEach W outputDir pdfs) as [evs err]. simpl in *. split_and!.
    + by apply prefix_cons.
    + intros Herr. by rewrite (IH2 Herr).
    + intros e He. destruct (IH3 e He) as [Hlen Hm]. split; [lia | done].
Qed.

(** In separate mode the files are written in the order of the results, and
    the first write that fails ends the loop: the files written are an
    initial part of the files to write, all of them when no write fails,
    fewer when one does. *)
Theorem writeEach_stops_at_first_failure (W : World) (outputDir : string)
    (pdfs : list PdfResult) :
  fst (writeEach W outputDir pdfs) `prefix_of` map (written W outputDir) pdfs /\
  (snd (writeEach W outputDir pdfs) = None ->
   fst (writeEach W outputDir pdfs) = map (written W outputDir) pdfs) /\
  (forall e, snd (writeEach W outputDir pdfs) = Some e ->
   length (fst (writeEach W outputDir pdfs)) < length pdfs /\ exists m, e = External m).
Proof. apply writeEach_spec. Qed.

Lemma writeEach_stops_at_first_failure_witness :
  snd (writeEach fullDiskSite "out"
         [mkPdf "https://a.com" "1"; mkPdf "https://a-com/x" "2"]) =
    Some (External "ENOSPC: no space left on device") /\
  fst (writeEach fullDiskSite "out"
         [mkPdf "https://a.com" "1"; mkPdf "https://a-com/x" "2"]) =
    [FileWritten "out/a-com.pdf" "1"] /\
  length (fst (writeEach fullDiskSite "out"
                 [mkPdf "https://a.com" "1"; mkPdf "https://a-com/x" "2"])) < 2 /\
  exists m, External "ENOSPC: no space left on device" = External m.
Proof.
  split; [reflexivity|]. split; [reflexivity|].
  apply (proj2 (proj2 (writeEach_stops_at_first_failure fullDiskSite "out"
           [mkPdf "https://a.com" "1"; mkPdf "https://a-com/x" "2"]))).
  reflexivity.
Defined.

Lemma writeEach_elem (W : World) (outputDir : string) (pdfs : list PdfResult)
    (path : string) (data : Buffer) :
  FileWritten path data ∈ fst (writeEach W outputDir pdfs) ->
  exists r, r ∈ pdfs /\ FileWritten path data = written W outputDir r.
Proof.
  destruct (writeEach_spec W outputDir pdfs) as [[k Hk] _]. intros Hin.
  assert (FileWritten path data ∈ map (written W outputDir) pdfs) as Hin'.
  { rewrite Hk. apply elem_of_app. by left. }
  apply list_elem_of_In, in_map_iff in Hin' as (r & Hr & Hin').
  exists r. split; [by apply list_elem_of_In | done].
Qed.

(** [main] writes nothing but what [generatePDF] returned: a file is written
    only after [generatePDF] has returned, and it is the combined PDF under
    the slug of the seed, or the PDF of one of the pages returned under the
    slug of that page's URL. *)
Theorem main_writes_only_results (W : World) (fuel : nat) (mainURL : string)
    (urlPattern : option UrlPattern) (options : Options) (path : string) (data : Buffer) :
  FileWritten path data ∈ snd (main W fuel mainURL urlPattern options) ->
  exists pattern re out,
    defaultedPattern W mainURL urlPattern = inr pattern /\
    asRegExp W pattern = inr re /\
    generatePDF W fuel mainURL re (cpus_length W) (isTrue (separate options)) = Returns out /\
    match out with
    | Combined pdf => data = pdf /\ path = outputFile W options mainURL
    | Separate pdfs => exists r, r ∈ pdfs /\ data = buffer r /\
                                 path = outputFile W options (url r)
    end.
Proof.
  unfold main. destruct (String.eqb mainURL "").
  { simpl. intros [?|?%elem_of_nil]%elem_of_cons; done. }
  destruct (defaultedPattern W mainURL urlPattern) as [e|pattern] eqn:Hpat.
  { simpl. by intros ?%elem_of_nil. }
  unfold mainTry. destruct (launch W) as [m|].
  { simpl. intros [?|?%elem_of_nil]%elem_of_cons; done. }
  destruct (asRegExp W pattern) as [e|re] eqn:Hre.
  { simpl. intros H. repeat (apply elem_of_cons in H as [?|H]; [done|]).
    by apply elem_of_nil in H. }
  destruct (generatePDF W fuel mainURL re _ _) as [out|e|] eqn:Hgen.
  - intros Hin. exists pattern, re, out. split_and!; try done.
    assert (FileWritten path data ∈ fst (writeOutput W mainURL options out)) as Hw.
    { destruct (writeOutput W mainURL options out) as [evs [e|]]; simpl in *.
      - apply elem_of_cons in Hin as [?|Hin]; [done|].
        apply elem_of_app in Hin as [?|Hin]; [done|].
        repeat (apply elem_of_cons in Hin as [?|Hin]; [done|]).
        by apply elem_of_nil in Hin.
      - apply elem_of_cons in Hin as [?|Hin]; [done|].
        apply elem_of_app in Hin as [?|Hin]; [done|].
        repeat (apply elem_of_cons in Hin as [?|Hin]; [done|]).
        by apply elem_of_nil in Hin. }
    clear Hin. unfold writeOutput in Hw.
    destruct (fs_ensureDir W _); [by apply elem_of_nil in Hw|].
    destruct out as [pdf|pdfs].
    + destruct (fs_writeFile W _ pdf); [by apply elem_of_nil in Hw|].
      simpl in Hw. apply list_elem_of_singleton in Hw. by injection Hw as -> ->.
    + apply writeEach_elem in Hw as (r & Hr & Heq). exists r.
      unfold written in Heq. by injection Heq as -> ->.
  - simpl. intros H. repeat (apply elem_of_cons in H as [?|H]; [done|]).
    by apply elem_of_nil in H.
  - simpl. intros H. repeat (apply elem_of_cons in H as [?|H]; [done|]).
    by apply elem_of_nil in H.
Qed.

Lemma main_writes_only_results_witness :
  FileWritten "out/a-com-x.pdf" "2" ∈ snd (main dotSite 10 "https://a.com" None outDirSeparate) /\
  exists pattern re out,
    defaultedPattern dotSite "https://a.com" None = inr pattern /\
    asRegExp dotSite pattern = inr re /\
    generatePDF dotSite 10 "https://a.com" re (cpus_length dotSite)
      (isTrue (separate outDirSeparate)) = Returns out /\
    match out with
    | Combined pdf => "2" = pdf /\ "out/a-com-x.pdf" = outputFile dotSite outDirSeparate "https://a.com"
    | Separate pdfs => exists r, r ∈ pdfs /\ "2" = buffer r /\
                                 "out/a-com-x.pdf" = outputFile dotSite outDirSeparate (url r)
    end.
Proof.
  assert (FileWritten "out/a-com-x.pdf" "2"
            ∈ snd (main dotSite 10 "https://a.com" None outDirSeparate)) as Hin.
  { apply elem_of_cons. right. apply elem_of_cons. right. apply elem_of_cons. by left. }
  split; [exact Hin|].
  exact (main_writes_only_results dotSite 10 "https://a.com" None outDirSeparate
           "out/a-com-x.pdf" "2" Hin).
Defined.

(** On a finite link graph [main] resolves: with a seed, a pattern that
    compiles and enough iterations for the crawl loop, it returns normally
    whatever the pages, the renders and the file system do. *)
Theorem main_resolves (W : World) (fuel : nat) (mainURL : string)
    (urlPattern : option UrlPattern) (options : Options) (pattern : UrlPattern)
    (re : RegExp) (univ : list string) :
  mainURL <> EmptyString ->
  defaultedPattern W mainURL urlPattern = inr pattern ->
  asRegExp W pattern = inr re ->
  linkClosed W (source re) mainURL univ = true -> length univ < fuel ->
  fst (main W fuel mainURL urlPattern options) = Returns tt.
Proof.
  intros Hne Hpat Hre Hclosed Hfuel. unfold main, mainTry.
  destruct (String.eqb_spec mainURL "") as [->|_]; [done|]. rewrite Hpat, Hre.
  destruct (launch W); [done|].
  pose proof (generatePDF_ends W mainURL re univ fuel (cpus_length W)
                (isTrue (separate options)) Hclosed Hfuel) as Hends.
  destruct (generatePDF W fuel mainURL re _ _) as [out|e|]; [|done|done].
  by destruct (writeOutput W mainURL options out) as [evs [e|]].
Qed.

Lemma main_resolves_witness :
  "https://site.test/" <> EmptyString /\
  defaultedPattern slashSite "https://site.test/" None =
    inr (PatRegExp (mkRegExp "^https://site.test/")) /\
  asRegExp slashSite (PatRegExp (mkRegExp "^https://site.test/")) =
    inr (mkRegExp "^https://site.test/") /\
  linkClosed slashSite "^https://site.test/" "https://site.test/"
    ["https://site.test"; "https://site.test/a"] = true /\
  2 < 3 /\
  fst (main slashSite 3 "https://site.test/" None outDir) = Returns tt.
Proof.
  split; [discriminate|]. split; [reflexivity|]. split; [reflexivity|].
  split; [reflexivity|]. split; [lia|].
  apply (main_resolves slashSite 3 "https://site.test/" None outDir
           (PatRegExp (mkRegExp "^https://site.test/")) (mkRegExp "^https://site.test/")
           ["https://site.test"; "https://site.test/a"]);
    [discriminate | reflexivity | reflexivity | reflexivity | simpl; lia].
Defined.

(** ** The earlier copy of the program against the current one *)

(** With a pattern that tests for the seed as a prefix, the current filter
    keeps exactly the links that the earlier filter keeps. *)
Theorem filters_agree_on_prefix_patterns (W : World) (pattern mainUrl : string)
    (test : string -> bool) (link : option string) :
  RegExp_compile W pattern = Some test ->
  (forall s, test s = Js.startsWith s mainUrl) ->
  evalLink W pattern link = Legacy.evalLink mainUrl link.
Proof.
  intros Hcompile Htest. unfold evalLink, Legacy.evalLink.
  destruct link as [l|]; [|done]. rewrite Hcompile, Htest.
  by destruct (Js.startsWith l mainUrl), (Js.includes l "#"),
    (Js.includes l "mailto:"), (Js.includes l "tel:").
Qed.

Lemma matchHere_literals (cs : list ascii) (s : string) :
  Fragment.matchHere (map (fun c => Fragment.One (Fragment.Lit c)) cs) s =
  Js.startsWith s (string_of_list_ascii cs).
Proof.
  revert s. induction cs as [|c cs IH]; intros s; [done|].
  simpl. destruct s as [|a s]; [done|]. rewrite IH.
  by destruct (Ascii.eqb a c).
Qed.

Lemma filters_agree_on_prefix_patterns_witness :
  RegExp_compile dotSite "^https://a\.com" =
    Some (Fragment.matchHere
            (map (fun c => Fragment.One (Fragment.Lit c)) (list_ascii_of_string "https://a.com"))) /\
  (forall s,
     Fragment.matchHere
       (map (fun c => Fragment.One (Fragment.Lit c)) (list_ascii_of_string "https://a.com")) s =
     Js.startsWith s "https://a.com") /\
  evalLink dotSite "^https://a\.com" (Some "https://a-com/x") =
    Legacy.evalLink "https://a.com" (Some "https://a-com/x").
Proof.
  assert (forall s,
     Fragment.matchHere
       (map (fun c => Fragment.One (Fragment.Lit c)) (list_ascii_of_string "https://a.com")) s =
     Js.startsWith s "https://a.com") as Htest.
  { intros s. apply matchHere_literals. }
  split; [reflexivity|]. split; [exact Htest|].
  exact (filters_agree_on_prefix_patterns dotSite "^https://a\.com" "https://a.com" _
           (Some "https://a-com/x") eq_refl Htest).
Defined.







(** ** More on [normalizeURL] and on the link filter *)

Lemma normalizeURL_fixed_point_witness :
  Js.includes "https://a.com/p" "#" = false /\
  Js.endsWith "https://a.com/p" "/" = false /\
  normalizeURL "https://a.com/p" = "https://a.com/p".
Proof.
  split; [reflexivity|]. split; [reflexivity|].
  apply (proj2 (normalizeURL_fixed_point "https://a.com/p")). split; reflexivity.
Defined.

Lemma startsWith_append (p r : string) : Js.startsWith (p +:+ r) p = true.
Proof.
  induction p as [|c p IH]; [done|].
  rewrite append_cons. simpl. by rewrite Ascii.eqb_refl.
Qed.

(** Normalizing only cuts the end off: the URL starts with its normalized
    form, which has no [#] and is no longer than the URL. *)
Theorem normalizeURL_cuts_the_end (u : string) :
  Js.startsWith u (normalizeURL u) = true /\
  Js.includes (normalizeURL u) "#" = false /\
  String.length (normalizeURL u) <= String.length u.
Proof.
  destruct (normalizeURL_prefix u) as [r Hr]. split_and!.
  - rewrite Hr at 1. apply startsWith_append.
  - apply normalizeURL_no_hash.
  - rewrite Hr at 2. clear Hr. induction (normalizeURL u) as [|c s IH]; simpl; lia.
Qed.

(** A link of a page is kept by the filter exactly when its URL could be
    resolved, is not empty, contains none of [#], [mailto:] and [tel:], and
    the pattern compiles and tests true on it. *)
Theorem subLinks_keeps_exactly (W : World) (pattern : string)
    (anchors : list (option string)) (l : string) :
  l ∈ subLinks W pattern anchors <->
  Some l ∈ anchors /\ l <> EmptyString /\ accepted W pattern l.
Proof.
  split.
  - intros Hl. destruct (subLinks_accepted W pattern anchors l Hl) as [Hin Hacc].
    split_and!; try done.
    unfold subLinks in Hl. apply list_elem_of_omap in Hl as (x & Hx & Hid).
    simpl in Hid. subst x. apply list_elem_of_In, filter_In in Hx as [_ Ht].
    intros ->. done.
  - intros (Hin & Hne & H1 & H2 & H3 & test & Hc & Ht).
    unfold subLinks. apply list_elem_of_omap. exists (Some l). split; [|done].
    apply list_elem_of_In, filter_In. split.
    + apply in_map_iff. exists (Some l). split; [|by apply list_elem_of_In].
      unfold evalLink. by rewrite H1, H2, H3, Hc, Ht.
    + simpl. destruct l; [done|]. done.
Qed.

Lemma subLinks_keeps_exactly_witness :
  Some "https://a.com/docs/" ∈ [Some "https://a.com/docs/"; Some "https://a.com/docs"] /\
  "https://a.com/docs/" <> EmptyString /\
  accepted docsSite "^https://a.com/docs/" "https://a.com/docs/" /\
  "https://a.com/docs/" ∈
    subLinks docsSite "^https://a.com/docs/"
      [Some "https://a.com/docs/"; Some "https://a.com/docs"].
Proof.
  assert (Some "https://a.com/docs/" ∈ [Some "https://a.com/docs/"; Some "https://a.com/docs"])
    as Hin by (by left).
  assert (accepted docsSite "^https://a.com/docs/" "https://a.com/docs/") as Hacc.
  { split; [reflexivity|]. split; [reflexivity|]. split; [reflexivity|].
    eexists. split; reflexivity. }
  split; [exact Hin|]. split; [discriminate|]. split; [exact Hacc|].
  apply (proj2 (subLinks_keeps_exactly docsSite "^https://a.com/docs/"
                  [Some "https://a.com/docs/"; Some "https://a.com/docs"]
                  "https://a.com/docs/")).
  split; [exact Hin|]. split; [discriminate | exact Hacc].
Defined.

(** ** No crawl target is fetched twice *)

Lemma normalizeURL_stable (l : string) :
  Js.includes l "#" = false -> Js.endsWith l "//" = false ->
  normalizeURL (normalizeURL l) = normalizeURL l.
Proof.
  intros Hno Hss. unfold normalizeURL at 2 3. rewrite (split_0_hash_fixed _ Hno).
  destruct (Js.endsWith l "/") eqn:Hend.
  - unfold normalizeURL.
    rewrite (split_0_hash_fixed _ (includes_slice_0_neg1 _ _ Hno)).
    destruct (Js.endsWith (Js.slice_0_neg1 l) "/") eqn:Hend2; [|done].
    rewrite (endsWith_slash_twice _ Hend Hend2) in Hss. discriminate.
  - unfold normalizeURL. by rewrite (split_0_hash_fixed _ Hno), Hend.
Qed.

Lemma map_fixed (f : string -> string) (l : list string) :
  (forall u, u ∈ l -> f u = u) -> map f l = l.
Proof.
  induction l as [|x l IH]; [done|]. intros H. simpl.
  rewrite (H x) by (by left). f_equal. apply IH. intros u Hu. apply H. by right.
Qed.

(** When the seed is in normalized form and no link that the filter keeps
    ends in two slashes, everything visited or queued is its own normalized
    form. *)
Lemma crawlTrace_normalized (W : World) (pattern seed : string) (st : CrawlState) (u : string) :
  normalizeURL seed = seed ->
  (forall p anchors close l,
     fetch W p = Loaded anchors close -> Some l ∈ anchors ->
     accepted W pattern l -> Js.endsWith l "//" = false) ->
  crawlTrace W pattern seed st ->
  u ∈ crawledUrls st \/ u ∈ queue st ->
  normalizeURL u = u.
Proof.
  intros Hseed Hlinks Htr Hu.
  destruct (crawlTrace_provenance W pattern seed st u Htr Hu)
    as [->|(p & anchors & close & l & _ & Hf & Hin & Hacc & ->)]; [done|].
  apply normalizeURL_stable; [by destruct Hacc | by eapply Hlinks].
Qed.

(** C1, amended: when the seed is in normalized form and no link that the
    filter keeps ends in two slashes, no crawl target, a URL identified by
    its normalized form, is fetched more than once: in every state of the
    crawl the URLs navigated to have pairwise different normalized forms,
    so have the URLs of the queue, and no URL of the queue has the normalized
    form of a visited one; and on a finite, possibly cyclic link graph the
    loop stops within as many iterations as the graph has pages, with the
    queue empty unless the fetch of one of the pages rejected. *)
Theorem crawl_visits_each_target_once (W : World) (seed : string) (urlPattern : RegExp) :
  normalizeURL seed = seed ->
  (forall p anchors close l,
     fetch W p = Loaded anchors close -> Some l ∈ anchors ->
     accepted W (source urlPattern) l -> Js.endsWith l "//" = false) ->
  (forall st, crawlTrace W (source urlPattern) seed st ->
     NoDup (map normalizeURL (navigations st)) /\
     NoDup (map normalizeURL (queue st)) /\
     (forall u v, u ∈ crawledUrls st -> v ∈ queue st -> normalizeURL u <> normalizeURL v)) /\
  (forall univ fuel,
     linkClosed W (source urlPattern) seed univ = true -> length univ < fuel ->
     exists st,
       (crawl W seed urlPattern fuel = Completed st /\ queue st = []) \/
       (exists e p, crawl W seed urlPattern fuel = Aborted e st /\ p ∈ seed :: univ /\
                    forall anchors, fetch W p <> Loaded anchors None)).
Proof.
  intros Hseed Hlinks. split.
  - intros st Htr. destruct (crawlTrace_inv _ _ _ _ Htr) as [Hq _ Hd Hn Hnc].
    assert (forall u, u ∈ crawledUrls st \/ u ∈ queue st -> normalizeURL u = u) as Hfix.
    { intros u Hu. by eapply crawlTrace_normalized. }
    rewrite (map_fixed normalizeURL (navigations st))
      by (intros u Hu; apply Hfix; left; by apply Hnc).
    rewrite (map_fixed normalizeURL (queue st)) by (intros u Hu; apply Hfix; by right).
    split_and!; [done | done |].
    intros u v Hu Hv. rewrite (Hfix u (or_introl Hu)), (Hfix v (or_intror Hv)).
    intros ->. by apply (Hd v).
  - intros univ fuel Hclosed Hfuel. unfold crawl.
    apply (crawlLoop_terminates W (source urlPattern) seed univ); [done | | |].
    + apply crawlInit_inv.
    + intros u [Hu|Hu]; simpl in Hu; [by apply elem_of_nil in Hu|].
      apply list_elem_of_singleton in Hu as ->. by left.
    + simpl. lia.
Qed.

Lemma crawl_visits_each_target_once_witness :
  normalizeURL "https://a.com" = "https://a.com" /\
  (forall p anchors close l,
     fetch dotSite p = Loaded anchors close -> Some l ∈ anchors ->
     accepted dotSite "^https://a.com" l -> Js.endsWith l "//" = false) /\
  crawlTrace dotSite "^https://a.com" "https://a.com"
    (mkCrawl ["https://a.com"; "https://a-com/x"] [] ["https://a.com"; "https://a-com/x"]) /\
  NoDup (map normalizeURL ["https://a.com"; "https://a-com/x"]) /\
  linkClosed dotSite "^https://a.com" "https://a.com" ["https://a-com/x"] = true /\
  1 < 2 /\
  exists st,
    (crawl dotSite "https://a.com" (mkRegExp "^https://a.com") 2 = Completed st /\
     queue st = []) \/
    (exists e p,
       crawl dotSite "https://a.com" (mkRegExp "^https://a.com") 2 = Aborted e st /\
       p ∈ ["https://a.com"; "https://a-com/x"] /\
       forall anchors, fetch dotSite p <> Loaded anchors None).
Proof.
  assert (forall p anchors close l,
     fetch dotSite p = Loaded anchors close -> Some l ∈ anchors ->
     accepted dotSite "^https://a.com" l -> Js.endsWith l "//" = false) as Hlinks.
  { intros p anchors close l Hf Hin _.
    change (default (GotoRejects "net::ERR_FAILED")
              (if String.eqb "https://a.com" p
               then Some (Loaded [Some "https://a-com/x"] None)
               else if String.eqb "https://a-com/x" p
                    then Some (Loaded [] None)
                    else None) = Loaded anchors close) in Hf.
    destruct (String.eqb "https://a.com" p).
    { injection Hf as <- _.
      apply elem_of_cons in Hin as [[= ->]|Hin]; [reflexivity|].
      by apply elem_of_nil in Hin. }
    destruct (String.eqb "https://a-com/x" p); [|discriminate].
    injection Hf as <- _. by apply elem_of_nil in Hin. }
  assert (crawlTrace dotSite "^https://a.com" "https://a.com"
            (mkCrawl ["https://a.com"; "https://a-com/x"] []
                     ["https://a.com"; "https://a-com/x"])) as Htr.
  { exact (crawlLoop_trace dotSite "^https://a.com" "https://a.com" 5
             (crawlInit "https://a.com") (trace_init _ _ _)). }
  pose proof (crawl_visits_each_target_once dotSite "https://a.com"
                (mkRegExp "^https://a.com") eq_refl Hlinks) as [Hinv Hterm].
  split; [reflexivity|]. split; [exact Hlinks|]. split; [exact Htr|].
  split; [exact (proj1 (Hinv _ Htr))|]. split; [reflexivity|]. split; [lia|].
  apply (Hterm ["https://a-com/x"] 2); [reflexivity | simpl; lia].
Defined.
